(** * The CSS selector builder of [src/05-objects-tasks.js]

    A shallow embedding of [cssSelectorBuilder] and the properties of its
    fragment sequences, error behaviour and rendering.

    The development has two layers.
    - The value layer reads a selector object as the array its [res]
      property holds (or as the absence of that property, for the bare
      facade) and every method as a function on such values.  A [throw]
      becomes the [Throw] completion.
    - The store layer ([Module Store]) keeps selector objects, arrays and
      fragment objects as cells of an object store and runs the methods as
      store transformers, so that what a method leaves untouched can be
      stated; it is shown to refine the value layer. *)

From stdpp Require Import base option list strings gmap.
From Stdlib Require Import ZArith Lia.

Local Open Scope Z_scope.

(** ** Completions: a value, or a thrown [Error] with its message *)

Inductive Completion (A : Type) : Type :=
| Normal (a : A)
| Throw (message : string).
Arguments Normal {A} a.
Arguments Throw {A} message.

#[global] Instance Completion_ret : MRet Completion := @Normal.
#[global] Instance Completion_bind : MBind Completion := λ A B k c,
  match c with
  | Normal a => k a
  | Throw message => Throw message
  end.

(** ** Data *)

(** The seven strings the builder ever stores in a fragment's [type]. *)
Inductive Kind : Type :=
| KElement | KId | KClass | KAttribute | KPseudoClass | KPseudoElement
| KCombinator.

#[global] Instance Kind_eq_dec : EqDecision Kind.
Proof. solve_decision. Defined.

Definition type_name (k : Kind) : string :=
  match k with
  | KElement => "element"
  | KId => "id"
  | KClass => "class"
  | KAttribute => "attribute"
  | KPseudoClass => "pseudo-class"
  | KPseudoElement => "pseudo-element"
  | KCombinator => "combinator"
  end.

(** [{ type: ..., value }] *)
Record Fragment : Type := { type : Kind; value : string }.

(** An object carrying the builder's methods; [res] is its optional own
    property: absent on the facade itself, an array on every object the
    methods return. *)
Record Selector : Type := { res : option (list Fragment) }.

Definition cssSelectorBuilder : Selector := {| res := None |}.

(** [this.res || []]: an array is truthy even when empty. *)
Definition res_or_empty (this : Selector) : list Fragment :=
  match res this with
  | Some array => array
  | None => []
  end.

(** Both failures are plain [Error] objects, told apart by their message:
    the duplicate error carries [TWICE_ERROR], the order error
    [NOT_SO_ERROR]. *)
Definition TWICE_ERROR : string :=
  "Element, id and pseudo-element should not occur more then one time inside the selector".
Definition NOT_SO_ERROR : string :=
  "Selector parts should be arranged in the following order: element, id, class, attribute, pseudo-class, pseudo-element".

(** ** Array helpers, as JavaScript defines them *)

(** [Array.prototype.indexOf]: first position of [x], or [-1]. *)
Fixpoint indexOf_from (l : list string) (x : string) (i : Z) : Z :=
  match l with
  | [] => -1
  | y :: l' => if decide (y = x) then i else indexOf_from l' x (i + 1)
  end.
Definition indexOf (l : list string) (x : string) : Z := indexOf_from l x 0.

(** [Array.prototype.every], whose callback receives the element, its
    index and the whole array. *)
Fixpoint every_from {A} (callback : A → nat → list A → bool)
    (array : list A) (index : nat) (rest : list A) : bool :=
  match rest with
  | [] => true
  | value :: rest' =>
      callback value index array && every_from callback array (S index) rest'
  end.
Definition every {A} (callback : A → nat → list A → bool) (array : list A) : bool :=
  every_from callback array 0%nat array.

(** ** throwErrorIfNotSorted *)

Definition order : list string :=
  ["element"; "id"; "class"; "attribute"; "pseudo-class"; "pseudo-element"].

(** The callback of [every]: [!index || order.indexOf(array[index - 1].type)
    <= order.indexOf(value.type)].  [array[index - 1]] exists whenever
    [index] is not 0 (see [every_from_prev]); the [None] branch is never
    taken. *)
Definition sorted_at (value : Fragment) (index : nat) (array : list Fragment) : bool :=
  (index =? 0)%nat
  || match array !! (index - 1)%nat with
     | Some prev =>
         indexOf order (type_name (type prev)) <=? indexOf order (type_name (type value))
     | None => false
     end.

Definition isSorted (this : Selector) : bool :=
  every sorted_at (res_or_empty this).

Definition throwErrorIfNotSorted (this : Selector) : Completion unit :=
  if negb (isSorted this) then Throw NOT_SO_ERROR else Normal tt.

(** ** The six appending methods *)

(** [this.res && this.res.filter((val) => val.type === name).length !== 0] *)
Definition occurs (name : string) (this : Selector) : bool :=
  match res this with
  | Some array =>
      bool_decide (length (filter (λ val, type_name (type val) = name) array) ≠ 0%nat)
  | None => false
  end.

Definition element (this : Selector) (value : string) : Completion Selector :=
  if occurs "element" this then Throw TWICE_ERROR
  else
    let res := {| res := Some (res_or_empty this ++ [{| type := KElement; value := value |}]) |} in
    throwErrorIfNotSorted res;;
    Normal res.

Definition id (this : Selector) (value : string) : Completion Selector :=
  if occurs "id" this then Throw TWICE_ERROR
  else
    let res := {| res := Some (res_or_empty this ++ [{| type := KId; value := value |}]) |} in
    throwErrorIfNotSorted res;;
    Normal res.

Definition class (this : Selector) (value : string) : Completion Selector :=
  let res := {| res := Some (res_or_empty this ++ [{| type := KClass; value := value |}]) |} in
  throwErrorIfNotSorted res;;
  Normal res.

Definition attr (this : Selector) (value : string) : Completion Selector :=
  let res := {| res := Some (res_or_empty this ++ [{| type := KAttribute; value := value |}]) |} in
  throwErrorIfNotSorted res;;
  Normal res.

Definition pseudoClass (this : Selector) (value : string) : Completion Selector :=
  let res := {| res := Some (res_or_empty this ++ [{| type := KPseudoClass; value := value |}]) |} in
  throwErrorIfNotSorted res;;
  Normal res.

Definition pseudoElement (this : Selector) (value : string) : Completion Selector :=
  if occurs "pseudo-element" this then Throw TWICE_ERROR
  else
    let res := {| res := Some (res_or_empty this ++ [{| type := KPseudoElement; value := value |}]) |} in
    throwErrorIfNotSorted res;;
    Normal res.

(** ** combine and stringify *)

Definition combine (this selector1 : Selector) (combinator : string)
    (selector2 : Selector) : Selector :=
  {| res := Some (res_or_empty selector1
                  ++ {| type := KCombinator; value := combinator |}
                  :: res_or_empty selector2) |}.

(** The object literal built for each fragment inside [reduce]. *)
Definition formatSelector (obj : Fragment) : gmap string string :=
  list_to_map
    [ ("id", "#" +:+ value obj);
      ("class", "." +:+ value obj);
      ("attribute", "[" +:+ value obj +:+ "]");
      ("pseudo-class", ":" +:+ value obj);
      ("pseudo-element", "::" +:+ value obj);
      ("combinator", " " +:+ value obj +:+ " ");
      ("default", value obj) ].

(** [a || b] on an optional string: [undefined] and [''] are falsy. *)
Definition or_else (a : option string) (b : option string) : option string :=
  match a with
  | Some "" | None => b
  | Some s => Some s
  end.

(** [formatSelector[obj.type] || formatSelector.default]; the [default]
    key is always present. *)
Definition format (obj : Fragment) : string :=
  default "" (or_else (formatSelector obj !! type_name (type obj))
                      (formatSelector obj !! "default")).

Definition stringify (this : Selector) : string :=
  fold_left (λ accumutator obj, accumutator +:+ format obj) (res_or_empty this) "".

(** ** The appending methods as one family

    The six methods differ only in the kind they append and in whether
    they first look for an earlier fragment of that kind. *)

Inductive AppendOp : Type :=
| OpElement | OpId | OpClass | OpAttr | OpPseudoClass | OpPseudoElement.

Definition run_op (op : AppendOp) : Selector → string → Completion Selector :=
  match op with
  | OpElement => element
  | OpId => id
  | OpClass => class
  | OpAttr => attr
  | OpPseudoClass => pseudoClass
  | OpPseudoElement => pseudoElement
  end.

Definition op_kind (op : AppendOp) : Kind :=
  match op with
  | OpElement => KElement
  | OpId => KId
  | OpClass => KClass
  | OpAttr => KAttribute
  | OpPseudoClass => KPseudoClass
  | OpPseudoElement => KPseudoElement
  end.

(** The methods that begin with the [filter(...).length !== 0] test. *)
Definition singleton_op (op : AppendOp) : bool :=
  match op with
  | OpElement | OpId | OpPseudoElement => true
  | OpClass | OpAttr | OpPseudoClass => false
  end.

(** The object every appending method builds before validating it. *)
Definition extended (this : Selector) (k : Kind) (v : string) : Selector :=
  {| res := Some (res_or_empty this ++ [{| type := k; value := v |}]) |}.

(** ** The specification's vocabulary *)

(** Rendering of one fragment, as the specification lists it. *)
Definition render_spec (f : Fragment) : string :=
  match type f with
  | KElement => value f
  | KId => "#" +:+ value f
  | KClass => "." +:+ value f
  | KAttribute => "[" +:+ value f +:+ "]"
  | KPseudoClass => ":" +:+ value f
  | KPseudoElement => "::" +:+ value f
  | KCombinator => " " +:+ value f +:+ " "
  end.

Definition concat_strings (l : list string) : string := foldr String.append "" l.
Arguments concat_strings : simpl never.

(** Ranks of the specification; combinators have none. *)
Definition rank_spec (k : Kind) : option nat :=
  match k with
  | KElement => Some 0%nat
  | KId => Some 1%nat
  | KClass => Some 2%nat
  | KAttribute => Some 3%nat
  | KPseudoClass => Some 4%nat
  | KPseudoElement => Some 5%nat
  | KCombinator => None
  end.

(** The position of a fragment's type in [order]. *)
Definition order_index (f : Fragment) : Z := indexOf order (type_name (type f)).

(** ** Auxiliary notions for the order scan and the duplicate test *)

(** What the scan amounts to: every fragment is compared with the one
    just before it. *)
Fixpoint chain (prev : option Fragment) (rest : list Fragment) : bool :=
  match rest with
  | [] => true
  | v :: rest' =>
      match prev with
      | Some p => order_index p <=? order_index v
      | None => true
      end && chain (Some v) rest'
  end.

(** Whether [f] may follow a sequence ending in [prev]. *)
Definition follows (prev : option Fragment) (f : Fragment) : bool :=
  match prev with
  | Some p => order_index p <=? order_index f
  | None => true
  end.

(** Number of fragments of kind [k]. *)
Definition count_kind (k : Kind) (l : list Fragment) : nat :=
  length (filter (λ f, type f = k) l).

(** ** Selectors built by appending, and the data-model invariants *)

(** Selectors obtained from an empty one by successful calls of the six
    appending methods. *)
Inductive reachable : Selector → Prop :=
| reachable_empty (this : Selector) :
    res_or_empty this = [] → reachable this
| reachable_append (op : AppendOp) (this this' : Selector) (v : string) :
    reachable this → run_op op this v = Normal this' → reachable this'.

Definition non_combinators (l : list Fragment) : list Fragment :=
  filter (λ f, type f ≠ KCombinator) l.

(** The non-combinator fragments are in non-decreasing rank order. *)
Definition rank_ordered (l : list Fragment) : Prop :=
  ∀ (i j : nat) (f g : Fragment),
    (i < j)%nat → non_combinators l !! i = Some f → non_combinators l !! j = Some g →
    ∃ m n : nat,
      rank_spec (type f) = Some m ∧ rank_spec (type g) = Some n ∧ (m ≤ n)%nat.

Record invariants (this : Selector) : Prop := {
  inv_element : (count_kind KElement (res_or_empty this) ≤ 1)%nat;
  inv_id : (count_kind KId (res_or_empty this) ≤ 1)%nat;
  inv_pseudo_element : (count_kind KPseudoElement (res_or_empty this) ≤ 1)%nat;
  inv_rank : rank_ordered (res_or_empty this)
}.

(** The chain [this.method(v1).method(v2)...], one call per element of
    [vs], which stops at the first throw. *)
Definition append_all (op : AppendOp) (this : Selector) (vs : list string) :
    Completion Selector :=
  foldl (λ c v, s ← c; run_op op s v) (Normal this) vs.

(** The fragment sequence of [this] holds a fragment of kind [k]. *)
Definition has_kind (k : Kind) (this : Selector) : Prop :=
  ∃ f, f ∈ res_or_empty this ∧ type f = k.

Definition fragments_of (k : Kind) (vs : list string) : list Fragment :=
  (λ v, {| type := k; value := v |}) <$> vs.

(** * The store layer

    Selector objects, arrays and fragment objects as cells of an object
    store.  The methods read cells and allocate new ones; the source has
    no assignment to a property or an array slot, and no call of a
    mutating array method, so the only store primitive that changes the
    store is allocation. *)

Module Store.

(** Addresses are positions in the store. *)
Abbreviation loc := nat.

Inductive Cell : Type :=
| FragmentCell (f : Fragment)      (* [{ type, value }] *)
| ArrayCell (elems : list loc)     (* an array of references to fragment objects *)
| ObjectCell (res : option loc).   (* the builder's methods and, possibly, [res] *)

Abbreviation store := (list Cell).

(** A computation runs on a store and completes normally or abruptly,
    leaving a store behind in both cases. *)
Definition M (A : Type) : Type := store → Completion A * store.

#[global] Instance M_ret : MRet M := λ A a σ, (Normal a, σ).
#[global] Instance M_bind : MBind M := λ A B k m σ,
  match m σ with
  | (Normal a, σ') => k a σ'
  | (Throw message, σ') => (Throw message, σ')
  end.

Definition throw {A} (message : string) : M A := λ σ, (Throw message, σ).

Definition alloc (c : Cell) : M loc := λ σ, (Normal (length σ), σ ++ [c]).

(** Reads.  An address holding another sort of cell than the one the
    method expects is outside what the builder produces; the read then
    completes abruptly. *)
Definition TYPE_ERROR : string := "TypeError".

Definition get_res (this : loc) : M (option loc) := λ σ,
  match σ !! this with
  | Some (ObjectCell res) => (Normal res, σ)
  | _ => (Throw TYPE_ERROR, σ)
  end.

Definition get_elems (array : loc) : M (list loc) := λ σ,
  match σ !! array with
  | Some (ArrayCell elems) => (Normal elems, σ)
  | _ => (Throw TYPE_ERROR, σ)
  end.

Definition get_fragment (obj : loc) : M Fragment := λ σ,
  match σ !! obj with
  | Some (FragmentCell f) => (Normal f, σ)
  | _ => (Throw TYPE_ERROR, σ)
  end.

(** [...this.res || []]: the references held by the array, or none. *)
Definition res_elems (this : loc) : M (list loc) :=
  res ← get_res this;
  match res with
  | Some array => get_elems array
  | None => mret []
  end.

(** [this.res && this.res.filter((val) => val.type === name).length !== 0];
    the array [filter] returns is used for its length only. *)
Definition occurs (name : string) (this : loc) : M bool :=
  res ← get_res this;
  match res with
  | Some array =>
      elems ← get_elems array;
      vals ← mapM get_fragment elems;
      mret (bool_decide (length (filter (λ val, type_name (type val) = name) vals) ≠ 0%nat))
  | None => mret false
  end.

Definition throwErrorIfNotSorted (this : loc) : M unit :=
  elems ← res_elems this;
  array ← mapM get_fragment elems;
  if negb (every sorted_at array) then throw NOT_SO_ERROR else mret tt.

(** [{ ...this, res: [...this.res || [], { type, value }] }]: a new
    fragment object, a new array holding the old references and the new
    one, and a new object pointing to that array. *)
Definition element (this : loc) (value : string) : M loc :=
  twice ← occurs "element" this;
  if twice : bool then throw TWICE_ERROR
  else
    elems ← res_elems this;
    obj ← alloc (FragmentCell {| type := KElement; value := value |});
    array ← alloc (ArrayCell (elems ++ [obj]));
    res ← alloc (ObjectCell (Some array));
    throwErrorIfNotSorted res;;
    mret res.

Definition id (this : loc) (value : string) : M loc :=
  twice ← occurs "id" this;
  if twice : bool then throw TWICE_ERROR
  else
    elems ← res_elems this;
    obj ← alloc (FragmentCell {| type := KId; value := value |});
    array ← alloc (ArrayCell (elems ++ [obj]));
    res ← alloc (ObjectCell (Some array));
    throwErrorIfNotSorted res;;
    mret res.

Definition class (this : loc) (value : string) : M loc :=
  elems ← res_elems this;
  obj ← alloc (FragmentCell {| type := KClass; value := value |});
  array ← alloc (ArrayCell (elems ++ [obj]));
  res ← alloc (ObjectCell (Some array));
  throwErrorIfNotSorted res;;
  mret res.

Definition attr (this : loc) (value : string) : M loc :=
  elems ← res_elems this;
  obj ← alloc (FragmentCell {| type := KAttribute; value := value |});
  array ← alloc (ArrayCell (elems ++ [obj]));
  res ← alloc (ObjectCell (Some array));
  throwErrorIfNotSorted res;;
  mret res.

Definition pseudoClass (this : loc) (value : string) : M loc :=
  elems ← res_elems this;
  obj ← alloc (FragmentCell {| type := KPseudoClass; value := value |});
  array ← alloc (ArrayCell (elems ++ [obj]));
  res ← alloc (ObjectCell (Some array));
  throwErrorIfNotSorted res;;
  mret res.

Definition pseudoElement (this : loc) (value : string) : M loc :=
  twice ← occurs "pseudo-element" this;
  if twice : bool then throw TWICE_ERROR
  else
    elems ← res_elems this;
    obj ← alloc (FragmentCell {| type := KPseudoElement; value := value |});
    array ← alloc (ArrayCell (elems ++ [obj]));
    res ← alloc (ObjectCell (Some array));
    throwErrorIfNotSorted res;;
    mret res.

Definition combine (this selector1 : loc) (combinator : string) (selector2 : loc) : M loc :=
  elems1 ← res_elems selector1;
  obj ← alloc (FragmentCell {| type := KCombinator; value := combinator |});
  elems2 ← res_elems selector2;
  array ← alloc (ArrayCell (elems1 ++ obj :: elems2));
  alloc (ObjectCell (Some array)).

Definition stringify (this : loc) : M string :=
  elems ← res_elems this;
  vals ← mapM get_fragment elems;
  mret (fold_left (λ accumutator obj, accumutator +:+ format obj) vals "").

Definition run_op (op : AppendOp) : loc → string → M loc :=
  match op with
  | OpElement => element
  | OpId => id
  | OpClass => class
  | OpAttr => attr
  | OpPseudoClass => pseudoClass
  | OpPseudoElement => pseudoElement
  end.

(** ** Reading a selector value off the store *)

Definition fragment_at (σ : store) (obj : loc) : option Fragment :=
  match σ !! obj with
  | Some (FragmentCell f) => Some f
  | _ => None
  end.

Definition view (σ : store) (this : loc) : option Selector :=
  match σ !! this with
  | Some (ObjectCell None) => Some {| res := None |}
  | Some (ObjectCell (Some array)) =>
      match σ !! array with
      | Some (ArrayCell elems) =>
          frags ← mapM (fragment_at σ) elems;
          Some {| res := Some frags |}
      | _ => None
      end
  | _ => None
  end.

(** The store in which only the facade exists, at address 0. *)
Definition initial : store := [ObjectCell None].
Definition builder : loc := 0%nat.

End Store.

(** A computation only ever extends the store it runs on. *)
Definition grows {A} (m : Store.M A) : Prop :=
  ∀ σ, σ `prefix_of` (m σ).2.

(** The outcome [r] of a store computation, in the store [σ] it leaves,
    matches the completion [c] of the value layer. *)
Definition refines (σ : Store.store) (r : Completion Store.loc)
    (c : Completion Selector) : Prop :=
  match r, c with
  | Normal l, Normal s => Store.view σ l = Some s
  | Throw message, Throw message' => message = message'
  | _, _ => False
  end.

(** The part the six appending methods share, once past the duplicate
    test. *)
Definition store_append (k : Kind) (this : Store.loc) (v : string) : Store.M Store.loc :=
  elems ← Store.res_elems this;
  obj ← Store.alloc (Store.FragmentCell {| type := k; value := v |});
  array ← Store.alloc (Store.ArrayCell (elems ++ [obj]));
  res ← Store.alloc (Store.ObjectCell (Some array));
  Store.throwErrorIfNotSorted res;;
  mret res.

(** * Further notions used by the properties beyond the claims *)

(** Every fragment's index in [order] is at least that of the fragment
    just before it. *)
Definition adjacent_ordered (l : list Fragment) : Prop :=
  ∀ (i : nat) (p f : Fragment),
    l !! i = Some p → l !! S i = Some f → order_index p ≤ order_index f.

(** The sequence of types of a selector's fragments. *)
Definition kinds (this : Selector) : list Kind := type <$> res_or_empty this.

(** The shape named in the header comment of the builder:
    [element#id.class[attr]:pseudoClass::pseudoElement].  Each part is
    given as the list of its texts; the class, attribute and pseudo-class
    parts may occur several times. *)
Definition canonical (es ids cs ats ps pes : list string) : list Fragment :=
  fragments_of KElement es ++ fragments_of KId ids
  ++ fragments_of KClass cs ++ fragments_of KAttribute ats
  ++ fragments_of KPseudoClass ps ++ fragments_of KPseudoElement pes.
(** * Properties *)

(** ** Strings *)

Lemma append_cons (c : Ascii.ascii) (s t : string) :
  String c s +:+ t = String c (s +:+ t).
Proof. reflexivity. Qed.

Lemma append_nil_l (s : string) : "" +:+ s = s.
Proof. reflexivity. Qed.

Lemma append_nil_r (s : string) : s +:+ "" = s.
Proof. induction s as [|c s IH]; [done |]. by rewrite append_cons, IH. Qed.

Lemma append_assoc (s t u : string) : (s +:+ t) +:+ u = s +:+ t +:+ u.
Proof.
  induction s as [|c s IH]; [done |]. by rewrite !append_cons, IH.
Qed.

Lemma fold_left_append (f : Fragment → string) (l : list Fragment) (acc : string) :
  fold_left (λ a obj, a +:+ f obj) l acc = acc +:+ concat_strings (f <$> l).
Proof.
  unfold concat_strings.
  revert acc. induction l as [|x l IH]; intros acc; cbn.
  - symmetry. apply append_nil_r.
  - rewrite IH. apply append_assoc.
Qed.

Lemma concat_strings_app (l1 l2 : list string) :
  concat_strings (l1 ++ l2) = concat_strings l1 +:+ concat_strings l2.
Proof.
  unfold concat_strings.
  induction l1 as [|x l1 IH]; cbn; [done |].
  rewrite IH. symmetry. apply append_assoc.
Qed.

(** ** Rendering *)

Lemma res_or_empty_extended (this : Selector) (k : Kind) (v : string) :
  res_or_empty (extended this k v) = res_or_empty this ++ [{| type := k; value := v |}].
Proof. reflexivity. Qed.

Lemma format_render (obj : Fragment) : format obj = render_spec obj.
Proof. destruct obj as [[] v]; vm_compute; reflexivity. Qed.

Lemma stringify_concat (this : Selector) :
  stringify this = concat_strings (render_spec <$> res_or_empty this).
Proof.
  unfold stringify. rewrite fold_left_append, append_nil_l.
  f_equal. apply list_fmap_ext. intros _ obj _. apply format_render.
Qed.

(** C1: [stringify] is the left-to-right concatenation of the per-kind
    renderings of the fragments: an element renders as its text, an id as
    [#text], a class as [.text], an attribute as [[text]], a pseudo-class
    as [:text], a pseudo-element as [::text] and a combinator as the text
    between two spaces, so that the space combinator renders as three
    spaces; a selector without fragments renders as the empty string. *)
Theorem stringify_renders_fragments :
  (∀ this : Selector,
     stringify this = concat_strings (render_spec <$> res_or_empty this))
  ∧ (∀ (this : Selector) (f : Fragment),
       stringify (extended this (type f) (value f)) = stringify this +:+ render_spec f)
  ∧ (∀ v : string,
       stringify {| res := Some [{| type := KElement; value := v |}] |} = v
       ∧ stringify {| res := Some [{| type := KId; value := v |}] |} = "#" +:+ v
       ∧ stringify {| res := Some [{| type := KClass; value := v |}] |} = "." +:+ v
       ∧ stringify {| res := Some [{| type := KAttribute; value := v |}] |} = "[" +:+ v +:+ "]"
       ∧ stringify {| res := Some [{| type := KPseudoClass; value := v |}] |} = ":" +:+ v
       ∧ stringify {| res := Some [{| type := KPseudoElement; value := v |}] |} = "::" +:+ v
       ∧ stringify {| res := Some [{| type := KCombinator; value := v |}] |} = " " +:+ v +:+ " ")
  ∧ stringify {| res := Some [{| type := KCombinator; value := " " |}] |} = "   "
  ∧ stringify cssSelectorBuilder = ""
  ∧ stringify {| res := Some [] |} = "".
Proof.
  split; [exact stringify_concat |].
  split.
  { intros this [k v]. rewrite !stringify_concat. cbn [type value].
    rewrite res_or_empty_extended, fmap_app, concat_strings_app.
    f_equal. apply append_nil_r. }
  split.
  { intros v. rewrite !stringify_concat.
    repeat split; unfold concat_strings, render_spec; cbn;
      by rewrite ?append_nil_r. }
  repeat split; vm_compute; reflexivity.
Qed.

(** ** The order scan *)



Lemma sorted_at_prev (pre rest : list Fragment) (v : Fragment) :
  sorted_at v (length pre) (pre ++ v :: rest) = follows (last pre) v.
Proof.
  unfold sorted_at, follows.
  destruct pre as [|p pre _] using rev_ind; [done |].
  rewrite last_snoc, length_app. cbn [length].
  replace (length pre + 1 - 1)%nat with (length pre + 0)%nat by lia.
  rewrite <- app_assoc, lookup_app_r by lia.
  replace (length pre + 0 - length pre)%nat with 0%nat by lia. cbn.
  replace (length pre + 1 =? 0)%nat with false; [done |].
  symmetry. apply Nat.eqb_neq. lia.
Qed.

(** Inside [every], [array[index - 1]] is defined at every index but 0. *)
Lemma every_from_prev (pre rest : list Fragment) (v : Fragment) :
  pre ≠ [] → is_Some ((pre ++ v :: rest) !! (length pre - 1)%nat).
Proof.
  intros Hpre. apply lookup_lt_is_Some. rewrite length_app.
  destruct pre; [done |]. cbn. lia.
Qed.

Lemma every_from_chain (pre rest : list Fragment) :
  every_from sorted_at (pre ++ rest) (length pre) rest = chain (last pre) rest.
Proof.
  revert pre. induction rest as [|v rest IH]; intros pre; [done |].
  cbn [every_from chain]. rewrite sorted_at_prev. unfold follows. f_equal.
  specialize (IH (pre ++ [v])).
  rewrite <- app_assoc, length_app, last_snoc in IH. cbn in IH.
  by replace (length pre + 1)%nat with (S (length pre)) in IH by lia.
Qed.

Lemma isSorted_chain (this : Selector) :
  isSorted this = chain None (res_or_empty this).
Proof. apply (every_from_chain []). Qed.

Lemma chain_snoc (prev : option Fragment) (l : list Fragment) (f : Fragment) :
  chain prev (l ++ [f])
  = chain prev l && follows (match last l with Some p => Some p | None => prev end) f.
Proof.
  revert prev. induction l as [|x l IH]; intros prev.
  - cbn. unfold follows. by rewrite andb_true_r.
  - cbn [app chain]. rewrite IH, andb_assoc. f_equal. f_equal.
    rewrite last_cons. by destruct (last l).
Qed.

Lemma chain_app (prev : option Fragment) (l1 l2 : list Fragment) :
  chain prev (l1 ++ l2)
  = chain prev l1 && chain (match last l1 with Some p => Some p | None => prev end) l2.
Proof.
  revert prev. induction l1 as [|x l1 IH]; intros prev; [done |].
  cbn [app chain]. rewrite IH, andb_assoc. f_equal. f_equal.
  rewrite last_cons. by destruct (last l1).
Qed.

(** Appending one fragment: the old sequence must pass, and the new
    fragment must not come before the last one. *)
Lemma isSorted_extended (this : Selector) (k : Kind) (v : string) :
  isSorted (extended this k v)
  = isSorted this && follows (last (res_or_empty this)) {| type := k; value := v |}.
Proof.
  rewrite !isSorted_chain, res_or_empty_extended, chain_snoc.
  by destruct (last (res_or_empty this)).
Qed.

Lemma order_index_rank (f : Fragment) :
  order_index f = match rank_spec (type f) with
                  | Some n => Z.of_nat n
                  | None => -1
                  end.
Proof. by destruct f as [[] v]. Qed.

Lemma chain_Some_le (p : Fragment) (l : list Fragment) (j : nat) (g : Fragment) :
  chain (Some p) l = true → l !! j = Some g → order_index p ≤ order_index g.
Proof.
  revert p j. induction l as [|x l IH]; intros p j Hc Hj; [done |].
  cbn [chain] in Hc. apply andb_true_iff in Hc as [Hpx Hc]. apply Z.leb_le in Hpx.
  destruct j as [|j]; cbn in Hj.
  - by simplify_eq.
  - specialize (IH x j Hc Hj). lia.
Qed.

Lemma chain_lookup_le (prev : option Fragment) (l : list Fragment)
    (i j : nat) (f g : Fragment) :
  chain prev l = true → (i < j)%nat → l !! i = Some f → l !! j = Some g →
  order_index f ≤ order_index g.
Proof.
  revert prev i j. induction l as [|x l IH]; intros prev i j Hc Hij Hi Hj; [done |].
  cbn [chain] in Hc. apply andb_true_iff in Hc as [_ Hc].
  destruct j as [|j]; [lia |]. cbn in Hj.
  destruct i as [|i]; cbn in Hi.
  - simplify_eq. by eapply chain_Some_le.
  - eapply (IH (Some x) i j); [done | lia | done | done].
Qed.

(** ** The appending methods *)

Lemma type_name_inj (k1 k2 : Kind) : type_name k1 = type_name k2 → k1 = k2.
Proof. by destruct k1, k2. Qed.


Lemma filter_type_name (k : Kind) (l : list Fragment) :
  filter (λ val, type_name (type val) = type_name k) l = filter (λ f, type f = k) l.
Proof.
  apply list_filter_iff. intros f. split; [apply type_name_inj | by intros ->].
Qed.

Lemma occurs_count (k : Kind) (this : Selector) :
  occurs (type_name k) this = bool_decide (count_kind k (res_or_empty this) ≠ 0%nat).
Proof.
  unfold occurs, res_or_empty, count_kind.
  destruct (res this) as [array|]; [by rewrite filter_type_name | done].
Qed.

Lemma count_kind_pos (k : Kind) (l : list Fragment) :
  count_kind k l ≠ 0%nat ↔ ∃ f, f ∈ l ∧ type f = k.
Proof.
  unfold count_kind. split.
  - intros Hlen. destruct (filter _ l) as [|f l'] eqn:Hf; [done |].
    assert (f ∈ filter (λ f, type f = k) l) as Hin by (rewrite Hf; left).
    apply list_elem_of_filter in Hin as [Hk Hin]. by exists f.
  - intros (f & Hin & Hk) Hlen. apply length_zero_iff_nil in Hlen.
    assert (f ∈ filter (λ f, type f = k) l) as Hf
      by by apply list_elem_of_filter.
    rewrite Hlen in Hf. by apply not_elem_of_nil in Hf.
Qed.

Lemma count_kind_snoc (k : Kind) (l : list Fragment) (f : Fragment) :
  count_kind k (l ++ [f])
  = (count_kind k l + if decide (type f = k) then 1 else 0)%nat.
Proof.
  unfold count_kind. rewrite filter_app, length_app. f_equal.
  rewrite filter_cons, filter_nil. by destruct (decide (type f = k)).
Qed.

(** Every appending method is: the duplicate test (for three of them),
    then the extension, then the order scan of the extended object. *)
Lemma run_op_unfold (op : AppendOp) (this : Selector) (v : string) :
  run_op op this v
  = if singleton_op op && occurs (type_name (op_kind op)) this
    then Throw TWICE_ERROR
    else if isSorted (extended this (op_kind op) v)
         then Normal (extended this (op_kind op) v)
         else Throw NOT_SO_ERROR.
Proof.
  destruct op; cbn [run_op singleton_op op_kind type_name andb];
    unfold element, id, class, attr, pseudoClass, pseudoElement,
      throwErrorIfNotSorted;
    fold (extended this KElement v); fold (extended this KId v);
    fold (extended this KClass v); fold (extended this KAttribute v);
    fold (extended this KPseudoClass v); fold (extended this KPseudoElement v);
    repeat match goal with
      | |- context [occurs ?n this] => destruct (occurs n this)
      | |- context [isSorted ?s] => destruct (isSorted s)
      end; reflexivity.
Qed.

Lemma TWICE_NOT_SO : TWICE_ERROR ≠ NOT_SO_ERROR.
Proof. discriminate. Qed.

Ltac run_op_cases op this v :=
  rewrite run_op_unfold;
  pose proof TWICE_NOT_SO;
  destruct (singleton_op op && occurs (type_name (op_kind op)) this) eqn:?;
  destruct (isSorted (extended this (op_kind op) v)) eqn:?.

Lemma run_op_Normal (op : AppendOp) (this s' : Selector) (v : string) :
  run_op op this v = Normal s' ↔
    singleton_op op && occurs (type_name (op_kind op)) this = false
    ∧ isSorted (extended this (op_kind op) v) = true
    ∧ s' = extended this (op_kind op) v.
Proof. run_op_cases op this v; intuition congruence. Qed.

Lemma run_op_TWICE (op : AppendOp) (this : Selector) (v : string) :
  run_op op this v = Throw TWICE_ERROR ↔
    singleton_op op && occurs (type_name (op_kind op)) this = true.
Proof. run_op_cases op this v; intuition congruence. Qed.

Lemma run_op_NOT_SO (op : AppendOp) (this : Selector) (v : string) :
  run_op op this v = Throw NOT_SO_ERROR ↔
    singleton_op op && occurs (type_name (op_kind op)) this = false
    ∧ isSorted (extended this (op_kind op) v) = false.
Proof. run_op_cases op this v; intuition congruence. Qed.

(** ** Selectors built by appending alone *)

Lemma reachable_no_combinator (this : Selector) :
  reachable this → Forall (λ f, type f ≠ KCombinator) (res_or_empty this).
Proof.
  induction 1 as [this Hnil | op this this' v _ IH Hrun].
  - rewrite Hnil. constructor.
  - apply run_op_Normal in Hrun as (_ & _ & ->).
    rewrite res_or_empty_extended. apply Forall_app. split; [done |].
    constructor; [by destruct op | constructor].
Qed.

Lemma reachable_isSorted (this : Selector) : reachable this → isSorted this = true.
Proof.
  destruct 1 as [this Hnil | op this this' v _ Hrun].
  - by rewrite isSorted_chain, Hnil.
  - by apply run_op_Normal in Hrun as (_ & ? & ->).
Qed.

Lemma reachable_count (this : Selector) (op : AppendOp) :
  singleton_op op = true → reachable this →
  (count_kind (op_kind op) (res_or_empty this) ≤ 1)%nat.
Proof.
  intros Hop. induction 1 as [this Hnil | op' this this' v _ IH Hrun].
  - rewrite Hnil. cbn. lia.
  - apply run_op_Normal in Hrun as (Hdup & _ & ->).
    rewrite res_or_empty_extended, count_kind_snoc. cbn [type].
    destruct (decide (op_kind op' = op_kind op)) as [Heq|]; [| lia].
    assert (op' = op) as -> by by destruct op', op.
    rewrite Hop, occurs_count in Hdup. cbn in Hdup.
    apply bool_decide_eq_false in Hdup. lia.
Qed.

Lemma filter_Forall_id (P : Fragment → Prop) `{∀ f, Decision (P f)}
    (l : list Fragment) :
  Forall P l → filter P l = l.
Proof.
  induction 1 as [|x l Hx _ IH]; [done |].
  by rewrite filter_cons_True, IH.
Qed.

Lemma sorted_rank_ordered (l : list Fragment) :
  chain None l = true → Forall (λ f, type f ≠ KCombinator) l → rank_ordered l.
Proof.
  intros Hc Hall i j f g Hij Hi Hj.
  unfold non_combinators in Hi, Hj.
  rewrite (filter_Forall_id _ _ Hall) in Hi, Hj.
  pose proof (chain_lookup_le _ _ _ _ _ _ Hc Hij Hi Hj) as Hle.
  rewrite !order_index_rank in Hle.
  rewrite Forall_lookup in Hall.
  pose proof (Hall _ _ Hi) as Hf. pose proof (Hall _ _ Hj) as Hg.
  destruct (rank_spec (type f)) as [m|] eqn:Hm; [| by destruct (type f)].
  destruct (rank_spec (type g)) as [n|] eqn:Hn; [| by destruct (type g)].
  exists m, n. repeat split. lia.
Qed.

(** C2: every selector obtained from an empty one through the six
    appending methods holds at most one element, at most one id and at
    most one pseudo-element fragment, and its non-combinator fragments are
    in non-decreasing rank order (element 0, id 1, class 2, attribute 3,
    pseudo-class 4, pseudo-element 5). *)
Theorem reachable_invariants (this : Selector) :
  reachable this → invariants this.
Proof.
  intros Hreach. split.
  - by apply (reachable_count this OpElement).
  - by apply (reachable_count this OpId).
  - by apply (reachable_count this OpPseudoElement).
  - apply sorted_rank_ordered.
    + rewrite <- isSorted_chain. by apply reachable_isSorted.
    + by apply reachable_no_combinator.
Qed.

Lemma reachable_invariants_witness :
  invariants
    {| res := Some [ {| type := KElement; value := "a" |};
                     {| type := KId; value := "main" |};
                     {| type := KClass; value := "c" |};
                     {| type := KClass; value := "d" |} ] |}.
Proof.
  apply reachable_invariants.
  pose (s1 := extended cssSelectorBuilder KElement "a").
  pose (s2 := extended s1 KId "main").
  pose (s3 := extended s2 KClass "c").
  apply (reachable_append OpClass s3 _ "d"); [| reflexivity].
  apply (reachable_append OpClass s2 _ "c"); [| reflexivity].
  apply (reachable_append OpId s1 _ "main"); [| reflexivity].
  apply (reachable_append OpElement cssSelectorBuilder _ "a"); [| reflexivity].
  by apply reachable_empty.
Defined.

(** ** Duplicate test *)

Lemma occurs_has_kind (k : Kind) (this : Selector) :
  occurs (type_name k) this = true ↔ has_kind k this.
Proof.
  rewrite occurs_count, bool_decide_eq_true. apply count_kind_pos.
Qed.

Lemma duplicate_throws (op : AppendOp) (this : Selector) (v : string) :
  singleton_op op = true → has_kind (op_kind op) this →
  run_op op this v = Throw TWICE_ERROR.
Proof.
  intros Hop Hk. apply run_op_TWICE. rewrite Hop. by apply occurs_has_kind.
Qed.

Lemma follows_value (prev : option Fragment) (k : Kind) (v w : string) :
  follows prev {| type := k; value := v |} = follows prev {| type := k; value := w |}.
Proof. by destruct prev. Qed.

Lemma append_all_snoc (op : AppendOp) (this : Selector) (vs : list string) (v : string) :
  append_all op this (vs ++ [v]) = (s ← append_all op this vs; run_op op s v).
Proof. unfold append_all. by rewrite foldl_snoc. Qed.

Lemma follows_fragments_of (l : list Fragment) (k : Kind) (vs : list string) (v : string) :
  follows (last l) {| type := k; value := "" |} = true →
  follows (last (l ++ fragments_of k vs)) {| type := k; value := v |} = true.
Proof.
  intros Hl. destruct vs as [|w vs _] using rev_ind.
  - cbn. rewrite app_nil_r. by rewrite (follows_value _ _ v "").
  - unfold fragments_of. rewrite fmap_app. cbn [fmap list_fmap].
    rewrite app_assoc, last_snoc. apply Z.leb_refl.
Qed.

Lemma append_all_accepts (op : AppendOp) (this : Selector) (vs : list string) :
  singleton_op op = false → isSorted this = true →
  follows (last (res_or_empty this)) {| type := op_kind op; value := "" |} = true →
  ∃ s', append_all op this vs = Normal s'
        ∧ isSorted s' = true
        ∧ res_or_empty s' = res_or_empty this ++ fragments_of (op_kind op) vs.
Proof.
  intros Hop Hsorted Hlast.
  induction vs as [|v vs IH] using rev_ind.
  - exists this. by rewrite app_nil_r.
  - destruct IH as (s & Hs & Hsort & Hres).
    assert (isSorted (extended s (op_kind op) v) = true) as Hext.
    { rewrite isSorted_extended, Hsort, Hres. cbn [andb].
      by apply follows_fragments_of. }
    exists (extended s (op_kind op) v). split; [| split; [done |]].
    + rewrite append_all_snoc, Hs. cbn.
      rewrite run_op_unfold, Hop, Hext. done.
    + rewrite res_or_empty_extended, Hres. unfold fragments_of.
      by rewrite fmap_app, app_assoc.
Qed.

(** C3: [element], [id] and [pseudoElement] throw the duplicate error on
    every selector that already holds a fragment of their kind, whatever
    the text; [class], [attr] and [pseudoClass] never throw it, their
    outcome is that of the order scan alone, and any number of calls in a
    row is accepted. *)
Theorem duplicate_check_singletons_only :
  (∀ this v, has_kind KElement this → element this v = Throw TWICE_ERROR)
  ∧ (∀ this v, has_kind KId this → id this v = Throw TWICE_ERROR)
  ∧ (∀ this v, has_kind KPseudoElement this → pseudoElement this v = Throw TWICE_ERROR)
  ∧ (∀ this v,
       class this v ≠ Throw TWICE_ERROR
       ∧ attr this v ≠ Throw TWICE_ERROR
       ∧ pseudoClass this v ≠ Throw TWICE_ERROR)
  ∧ (∀ op this v, singleton_op op = false →
       run_op op this v
       = if isSorted (extended this (op_kind op) v)
         then Normal (extended this (op_kind op) v)
         else Throw NOT_SO_ERROR)
  ∧ (∀ op this vs, singleton_op op = false →
       isSorted this = true →
       follows (last (res_or_empty this)) {| type := op_kind op; value := "" |} = true →
       ∃ s', append_all op this vs = Normal s'
             ∧ res_or_empty s' = res_or_empty this ++ fragments_of (op_kind op) vs).
Proof.
  split; [intros this v; by apply (duplicate_throws OpElement) |].
  split; [intros this v; by apply (duplicate_throws OpId) |].
  split; [intros this v; by apply (duplicate_throws OpPseudoElement) |].
  split.
  { intros this v.
    pose proof (run_op_TWICE OpClass this v) as H1.
    pose proof (run_op_TWICE OpAttr this v) as H2.
    pose proof (run_op_TWICE OpPseudoClass this v) as H3.
    cbn in H1, H2, H3. intuition congruence. }
  split.
  { intros op this v Hop. by rewrite run_op_unfold, Hop. }
  intros op this vs Hop Hsorted Hlast.
  destruct (append_all_accepts op this vs Hop Hsorted Hlast) as (s' & ? & _ & ?).
  by exists s'.
Qed.

Lemma duplicate_check_singletons_only_witness :
  id {| res := Some [ {| type := KId; value := "main" |};
                      {| type := KClass; value := "c" |} ] |} "other"
  = Throw TWICE_ERROR
  ∧ ∃ s', append_all OpClass
            {| res := Some [ {| type := KId; value := "main" |};
                             {| type := KClass; value := "c" |} ] |}
            ["c"; "c"; "d"]
          = Normal s'
          ∧ res_or_empty s'
            = [ {| type := KId; value := "main" |}; {| type := KClass; value := "c" |};
                {| type := KClass; value := "c" |}; {| type := KClass; value := "c" |};
                {| type := KClass; value := "d" |} ].
Proof.
  split.
  - apply (proj1 (proj2 duplicate_check_singletons_only)).
    exists {| type := KId; value := "main" |}. split; [left | reflexivity].
  - exact (proj2 (proj2 (proj2 (proj2 (proj2 duplicate_check_singletons_only))))
             OpClass
             {| res := Some [ {| type := KId; value := "main" |};
                              {| type := KClass; value := "c" |} ] |}
             ["c"; "c"; "d"] eq_refl eq_refl eq_refl).
Defined.

(** C7: when a call of [element], [id] or [pseudoElement] would both
    repeat its kind and leave the sequence out of order, the duplicate
    error is thrown and not the order error: the duplicate test looks at
    the incoming kind before the sequence is extended and scanned. *)
Theorem duplicate_error_first (this : Selector) (v : string) :
  (has_kind KElement this → isSorted (extended this KElement v) = false →
     element this v = Throw TWICE_ERROR ∧ element this v ≠ Throw NOT_SO_ERROR)
  ∧ (has_kind KId this → isSorted (extended this KId v) = false →
       id this v = Throw TWICE_ERROR ∧ id this v ≠ Throw NOT_SO_ERROR)
  ∧ (has_kind KPseudoElement this → isSorted (extended this KPseudoElement v) = false →
       pseudoElement this v = Throw TWICE_ERROR
       ∧ pseudoElement this v ≠ Throw NOT_SO_ERROR).
Proof.
  pose proof TWICE_NOT_SO as Hne.
  split; [| split]; intros Hk _.
  - pose proof (duplicate_throws OpElement this v eq_refl Hk) as Hrun.
    cbn [run_op] in Hrun. rewrite Hrun. split; congruence.
  - pose proof (duplicate_throws OpId this v eq_refl Hk) as Hrun.
    cbn [run_op] in Hrun. rewrite Hrun. split; congruence.
  - pose proof (duplicate_throws OpPseudoElement this v eq_refl Hk) as Hrun.
    cbn [run_op] in Hrun. rewrite Hrun. split; congruence.
Qed.

Lemma duplicate_error_first_witness :
  let this := {| res := Some [ {| type := KElement; value := "div" |};
                               {| type := KId; value := "main" |};
                               {| type := KClass; value := "c" |} ] |} in
  (element this "p" = Throw TWICE_ERROR ∧ element this "p" ≠ Throw NOT_SO_ERROR)
  ∧ (id this "q" = Throw TWICE_ERROR ∧ id this "q" ≠ Throw NOT_SO_ERROR).
Proof.
  intros this. split.
  - apply (proj1 (duplicate_error_first this "p")); [| reflexivity].
    exists {| type := KElement; value := "div" |}. split; [left | reflexivity].
  - apply (proj1 (proj2 (duplicate_error_first this "q"))); [| reflexivity].
    exists {| type := KId; value := "main" |}.
    split; [right; left | reflexivity].
Defined.

(** ** combine *)

Lemma concat_strings_cons (x : string) (l : list string) :
  concat_strings (x :: l) = x +:+ concat_strings l.
Proof. reflexivity. Qed.

Lemma stringify_combine (this a b : Selector) (c : string) :
  stringify (combine this a c b) = stringify a +:+ " " +:+ c +:+ " " +:+ stringify b.
Proof.
  rewrite !stringify_concat.
  change (res_or_empty (combine this a c b))
    with (res_or_empty a ++ {| type := KCombinator; value := c |} :: res_or_empty b).
  rewrite fmap_app, fmap_cons, concat_strings_app, concat_strings_cons.
  f_equal. unfold render_spec at 1. cbn [type value]. by rewrite !append_assoc.
Qed.

(** C8: the worked examples.  [combine(element('div').id('main'), '+',
    element('table').id('data'))] renders as [div#main + table#data], and
    [id('main').class('container').class('editable')] renders as
    [#main.container.editable]. *)
Theorem worked_examples :
  (a ← (s ← element cssSelectorBuilder "div"; id s "main");
   b ← (s ← element cssSelectorBuilder "table"; id s "data");
   mret (stringify (combine cssSelectorBuilder a "+" b)))
  = Normal "div#main + table#data"
  ∧ (s1 ← id cssSelectorBuilder "main";
     s2 ← class s1 "container";
     s3 ← class s2 "editable";
     mret (stringify s3))
    = Normal "#main.container.editable".
Proof. split; vm_compute; reflexivity. Qed.

(** ** Appending to a sequence that holds a combinator *)

Lemma order_index_combinator (g : Fragment) :
  type g = KCombinator → order_index g = -1.
Proof. destruct g as [k v]. cbn. by intros ->. Qed.

Lemma order_index_non_combinator (f : Fragment) :
  type f ≠ KCombinator → 0 ≤ order_index f.
Proof. destruct f as [[] v]; cbn; intros Hk; by try lia. Qed.

Lemma chain_adjacent_violation (prev : option Fragment) (l1 l2 : list Fragment)
    (f g : Fragment) :
  order_index g < order_index f → chain prev (l1 ++ f :: g :: l2) = false.
Proof.
  intros Hlt. rewrite chain_app. cbn [chain].
  assert ((order_index f <=? order_index g) = false) as -> by by apply Z.leb_gt.
  cbn. by rewrite !andb_false_r.
Qed.

Lemma unsorted_extended (this : Selector) (k : Kind) (v : string) :
  isSorted this = false → isSorted (extended this k v) = false.
Proof. intros Hs. by rewrite isSorted_extended, Hs. Qed.

Lemma unsorted_append_throws (op : AppendOp) (this : Selector) (v : string) :
  singleton_op op = false → isSorted this = false →
  run_op op this v = Throw NOT_SO_ERROR.
Proof.
  intros Hop Hs. apply run_op_NOT_SO. rewrite Hop.
  split; [done | by apply unsorted_extended].
Qed.

(** C9: on a selector returned by [combine] in which some non-combinator
    fragment is immediately followed by a combinator, every call of
    [class], [attr] or [pseudoClass] throws the order error: the scan
    that follows the append covers the whole sequence, and the type
    [combinator], absent from [order], has index [-1], below the index of
    every other type. *)
Theorem append_after_combine_throws :
  (∀ (this a b : Selector) (c v : string) (l1 l2 : list Fragment) (f g : Fragment),
     res_or_empty (combine this a c b) = l1 ++ f :: g :: l2 →
     type f ≠ KCombinator → type g = KCombinator →
     class (combine this a c b) v = Throw NOT_SO_ERROR
     ∧ attr (combine this a c b) v = Throw NOT_SO_ERROR
     ∧ pseudoClass (combine this a c b) v = Throw NOT_SO_ERROR)
  ∧ indexOf order (type_name KCombinator) = -1
  ∧ (∀ k : Kind, k ≠ KCombinator → 0 ≤ indexOf order (type_name k)).
Proof.
  split; [| split; [reflexivity | intros []; cbn; intros Hk; by try lia]].
  intros this a b c v l1 l2 f g Hres Hf Hg.
  assert (isSorted (combine this a c b) = false) as Hs.
  { rewrite isSorted_chain, Hres. apply chain_adjacent_violation.
    rewrite (order_index_combinator g Hg).
    pose proof (order_index_non_combinator f Hf). lia. }
  split; [| split].
  - by apply (unsorted_append_throws OpClass).
  - by apply (unsorted_append_throws OpAttr).
  - by apply (unsorted_append_throws OpPseudoClass).
Qed.

Lemma append_after_combine_throws_witness :
  let s := combine cssSelectorBuilder
             {| res := Some [ {| type := KElement; value := "div" |} ] |}
             ">"
             {| res := Some [ {| type := KElement; value := "p" |} ] |} in
  class s "active" = Throw NOT_SO_ERROR
  ∧ attr s "active" = Throw NOT_SO_ERROR
  ∧ pseudoClass s "active" = Throw NOT_SO_ERROR.
Proof.
  intros s.
  apply (proj1 append_after_combine_throws cssSelectorBuilder _ _ ">" _
           [] [ {| type := KElement; value := "p" |} ]
           {| type := KElement; value := "div" |}
           {| type := KCombinator; value := ">" |}).
  - reflexivity.
  - discriminate.
  - reflexivity.
Defined.

(** ** When the order error is thrown *)

Lemma follows_false (prev : option Fragment) (f : Fragment) :
  follows prev f = false ↔ ∃ p, prev = Some p ∧ order_index f < order_index p.
Proof.
  destruct prev as [p|]; cbn.
  - rewrite Z.leb_gt. split; [by exists p | by intros (? & [= <-] & ?)].
  - split; [done | by intros (? & ? & ?)].
Qed.

(** On a selector that passes the scan, an append that gets past the
    duplicate test throws the order error exactly when the new fragment's
    index is below that of the last fragment. *)
Lemma sorted_append_NOT_SO (op : AppendOp) (this : Selector) (v : string) :
  isSorted this = true →
  singleton_op op && occurs (type_name (op_kind op)) this = false →
  run_op op this v = Throw NOT_SO_ERROR ↔
    ∃ p, last (res_or_empty this) = Some p
         ∧ order_index {| type := op_kind op; value := v |} < order_index p.
Proof.
  intros Hs Hdup. rewrite run_op_NOT_SO, isSorted_extended, Hs, <- follows_false.
  cbn [andb]. intuition.
Qed.

(** * The store layer: frame and refinement *)

(** ** Computations only allocate *)

Lemma grows_ret {A} (a : A) : grows (mret a : Store.M A).
Proof. intros σ. done. Qed.

Lemma grows_throw {A} (message : string) : grows (Store.throw message : Store.M A).
Proof. intros σ. done. Qed.

Lemma grows_alloc (c : Store.Cell) : grows (Store.alloc c).
Proof. intros σ. cbn. by apply prefix_app_r. Qed.

Lemma grows_get_res (this : Store.loc) : grows (Store.get_res this).
Proof. intros σ. unfold Store.get_res. by repeat case_match. Qed.

Lemma grows_get_elems (array : Store.loc) : grows (Store.get_elems array).
Proof. intros σ. unfold Store.get_elems. by repeat case_match. Qed.

Lemma grows_get_fragment (obj : Store.loc) : grows (Store.get_fragment obj).
Proof. intros σ. unfold Store.get_fragment. by repeat case_match. Qed.

Lemma grows_bind {A B} (m : Store.M A) (k : A → Store.M B) :
  grows m → (∀ a, grows (k a)) → grows (m ≫= k).
Proof.
  intros Hm Hk σ. unfold mbind, Store.M_bind.
  specialize (Hm σ). destruct (m σ) as [[a|message] σ']; cbn in *; [| done].
  etrans; [exact Hm | apply Hk].
Qed.

Lemma grows_mapM {A B} (f : A → Store.M B) (l : list A) :
  (∀ a, grows (f a)) → grows (mapM f l).
Proof.
  intros Hf. induction l as [|x l IH]; cbn.
  - apply grows_ret.
  - apply grows_bind; [done |]. intros y.
    apply grows_bind; [done |]. intros k. apply grows_ret.
Qed.

Ltac grows_step :=
  first
    [ apply grows_bind; [| intros ?]
    | apply grows_ret
    | apply grows_throw
    | apply grows_alloc
    | apply grows_get_res
    | apply grows_get_elems
    | apply grows_get_fragment
    | apply grows_mapM; intros ?
    | match goal with |- grows (match ?x with _ => _ end) => destruct x end ].

Lemma grows_res_elems (this : Store.loc) : grows (Store.res_elems this).
Proof. unfold Store.res_elems. repeat grows_step. Qed.

Lemma grows_occurs (name : string) (this : Store.loc) : grows (Store.occurs name this).
Proof. unfold Store.occurs. repeat grows_step. Qed.

Lemma grows_throwErrorIfNotSorted (this : Store.loc) :
  grows (Store.throwErrorIfNotSorted this).
Proof.
  unfold Store.throwErrorIfNotSorted.
  repeat first [apply grows_res_elems | grows_step].
Qed.

Lemma grows_run_op (op : AppendOp) (this : Store.loc) (v : string) :
  grows (Store.run_op op this v).
Proof.
  destruct op; cbn [Store.run_op];
    unfold Store.element, Store.id, Store.class, Store.attr,
      Store.pseudoClass, Store.pseudoElement;
    repeat first [ apply grows_res_elems | apply grows_occurs
                 | apply grows_throwErrorIfNotSorted | grows_step ].
Qed.

Lemma grows_combine (this selector1 : Store.loc) (c : string) (selector2 : Store.loc) :
  grows (Store.combine this selector1 c selector2).
Proof.
  unfold Store.combine. repeat first [apply grows_res_elems | grows_step].
Qed.

Lemma grows_stringify (this : Store.loc) : grows (Store.stringify this).
Proof.
  unfold Store.stringify. repeat first [apply grows_res_elems | grows_step].
Qed.

(** ** What is read off the store survives every extension of it *)

Lemma fragment_at_mono (σ σ' : Store.store) (obj : Store.loc) (f : Fragment) :
  σ `prefix_of` σ' → Store.fragment_at σ obj = Some f → Store.fragment_at σ' obj = Some f.
Proof.
  unfold Store.fragment_at. intros Hpre Hf.
  destruct (σ !! obj) as [c|] eqn:Hc; [| done].
  by rewrite (prefix_lookup_Some _ _ _ _ Hc Hpre).
Qed.

Lemma fragments_at_mono (σ σ' : Store.store) (elems : list Store.loc)
    (frags : list Fragment) :
  σ `prefix_of` σ' →
  mapM (Store.fragment_at σ) elems = Some frags →
  mapM (Store.fragment_at σ') elems = Some frags.
Proof.
  intros Hpre. rewrite !mapM_Some. intros Hall.
  eapply Forall2_impl; [exact Hall |].
  intros obj f. by apply fragment_at_mono.
Qed.

Lemma view_inv (σ : Store.store) (this : Store.loc) (s : Selector) :
  Store.view σ this = Some s →
  (σ !! this = Some (Store.ObjectCell None) ∧ s = {| res := None |})
  ∨ ∃ array elems frags,
      σ !! this = Some (Store.ObjectCell (Some array))
      ∧ σ !! array = Some (Store.ArrayCell elems)
      ∧ mapM (Store.fragment_at σ) elems = Some frags
      ∧ s = {| res := Some frags |}.
Proof.
  unfold Store.view. intros Hv.
  destruct (σ !! this) as [[| |[array|]]|] eqn:Hthis; try done.
  - right. destruct (σ !! array) as [[|elems|]|] eqn:Harray; try done.
    destruct (mapM (Store.fragment_at σ) elems) as [frags|] eqn:Hfrags; [| done].
    exists array, elems, frags. by simplify_eq/=.
  - left. by simplify_eq.
Qed.

Lemma view_mono (σ σ' : Store.store) (this : Store.loc) (s : Selector) :
  σ `prefix_of` σ' → Store.view σ this = Some s → Store.view σ' this = Some s.
Proof.
  intros Hpre Hv.
  destruct (view_inv _ _ _ Hv) as [[Hthis ->] | (array & elems & frags & Hthis & Harray & Hfrags & ->)];
    unfold Store.view.
  - by rewrite (prefix_lookup_Some _ _ _ _ Hthis Hpre).
  - rewrite (prefix_lookup_Some _ _ _ _ Hthis Hpre),
      (prefix_lookup_Some _ _ _ _ Harray Hpre),
      (fragments_at_mono _ _ _ _ Hpre Hfrags). done.
Qed.

(** ** Reads agree with the value read off the store *)

Lemma bind_run {A B} (m : Store.M A) (k : A → Store.M B) (σ σ' : Store.store) (a : A) :
  m σ = (Normal a, σ') → (m ≫= k) σ = k a σ'.
Proof. intros Hm. unfold mbind, Store.M_bind. by rewrite Hm. Qed.

Lemma bind_run_throw {A B} (m : Store.M A) (k : A → Store.M B) (σ σ' : Store.store)
    (message : string) :
  m σ = (Throw message, σ') → (m ≫= k) σ = (Throw message, σ').
Proof. intros Hm. unfold mbind, Store.M_bind. by rewrite Hm. Qed.

Lemma get_fragments (σ : Store.store) (elems : list Store.loc) (frags : list Fragment) :
  mapM (Store.fragment_at σ) elems = Some frags →
  mapM Store.get_fragment elems σ = (Normal frags, σ).
Proof.
  rewrite mapM_Some. induction 1 as [|obj f elems frags Hf _ IH]; [done |].
  cbn. unfold Store.fragment_at in Hf.
  rewrite (bind_run _ _ σ σ f).
  - by rewrite (bind_run _ _ σ σ frags).
  - unfold Store.get_fragment. by repeat case_match; simplify_eq.
Qed.

Lemma view_res_elems (σ : Store.store) (this : Store.loc) (s : Selector) :
  Store.view σ this = Some s →
  ∃ elems, Store.res_elems this σ = (Normal elems, σ)
           ∧ mapM (Store.fragment_at σ) elems = Some (res_or_empty s).
Proof.
  intros Hv.
  destruct (view_inv _ _ _ Hv) as [[Hthis ->] | (array & elems & frags & Hthis & Harray & Hfrags & ->)].
  - exists []. split; [| done].
    unfold Store.res_elems. rewrite (bind_run _ _ σ σ None); [done |].
    unfold Store.get_res. by rewrite Hthis.
  - exists elems. split; [| done].
    unfold Store.res_elems. rewrite (bind_run _ _ σ σ (Some array)).
    + unfold Store.get_elems. by rewrite Harray.
    + unfold Store.get_res. by rewrite Hthis.
Qed.

Lemma view_occurs (σ : Store.store) (this : Store.loc) (s : Selector) (name : string) :
  Store.view σ this = Some s →
  Store.occurs name this σ = (Normal (occurs name s), σ).
Proof.
  intros Hv.
  destruct (view_inv _ _ _ Hv) as [[Hthis ->] | (array & elems & frags & Hthis & Harray & Hfrags & ->)];
    unfold Store.occurs.
  - rewrite (bind_run _ _ σ σ None); [done |].
    unfold Store.get_res. by rewrite Hthis.
  - rewrite (bind_run _ _ σ σ (Some array));
      [| unfold Store.get_res; by rewrite Hthis].
    rewrite (bind_run _ _ σ σ elems);
      [| unfold Store.get_elems; by rewrite Harray].
    by rewrite (bind_run _ _ σ σ frags) by by apply get_fragments.
Qed.

Lemma view_throwErrorIfNotSorted (σ : Store.store) (this : Store.loc) (s : Selector) :
  Store.view σ this = Some s →
  Store.throwErrorIfNotSorted this σ = (throwErrorIfNotSorted s, σ).
Proof.
  intros Hv. destruct (view_res_elems _ _ _ Hv) as (elems & Hel & Hfrags).
  unfold Store.throwErrorIfNotSorted, throwErrorIfNotSorted, isSorted.
  rewrite (bind_run _ _ σ σ elems) by done.
  rewrite (bind_run _ _ σ σ (res_or_empty s)) by by apply get_fragments.
  by destruct (every sorted_at (res_or_empty s)).
Qed.

Lemma view_stringify (σ : Store.store) (this : Store.loc) (s : Selector) :
  Store.view σ this = Some s →
  Store.stringify this σ = (Normal (stringify s), σ).
Proof.
  intros Hv. destruct (view_res_elems _ _ _ Hv) as (elems & Hel & Hfrags).
  unfold Store.stringify.
  rewrite (bind_run _ _ σ σ elems) by done.
  by rewrite (bind_run _ _ σ σ (res_or_empty s)) by by apply get_fragments.
Qed.

(** ** The methods refine their value-layer counterparts *)

Lemma view_new_object (σ : Store.store) (elems : list Store.loc) (frags : list Fragment) :
  mapM (Store.fragment_at σ) elems = Some frags →
  ∀ (σ' : Store.store) (array this : Store.loc),
    σ `prefix_of` σ' →
    σ' !! array = Some (Store.ArrayCell elems) →
    σ' !! this = Some (Store.ObjectCell (Some array)) →
    Store.view σ' this = Some {| res := Some frags |}.
Proof.
  intros Hfrags σ' array this Hpre Harray Hthis.
  unfold Store.view. rewrite Hthis, Harray.
  by rewrite (fragments_at_mono _ _ _ _ Hpre Hfrags).
Qed.

Lemma lookup_snoc_new {A} (l : list A) (x : A) : (l ++ [x]) !! length l = Some x.
Proof. by apply list_lookup_middle. Qed.

Lemma lookup_snoc_old {A} (l : list A) (x y : A) (i : nat) :
  l !! i = Some y → (l ++ [x]) !! i = Some y.
Proof. intros Hi. by apply lookup_app_l_Some. Qed.

Lemma fragments_at_snoc (σ : Store.store) (elems : list Store.loc)
    (frags : list Fragment) (obj : Store.loc) (f : Fragment) :
  mapM (Store.fragment_at σ) elems = Some frags →
  Store.fragment_at σ obj = Some f →
  mapM (Store.fragment_at σ) (elems ++ [obj]) = Some (frags ++ [f]).
Proof.
  rewrite !mapM_Some. intros Hall Hobj.
  apply Forall2_app; [done |]. by repeat constructor.
Qed.

Lemma store_append_refines (σ : Store.store) (this : Store.loc) (s : Selector)
    (k : Kind) (v : string) :
  Store.view σ this = Some s →
  ∃ σ' l',
    σ `prefix_of` σ'
    ∧ Store.view σ' l' = Some (extended s k v)
    ∧ store_append k this v σ
      = (if isSorted (extended s k v) then Normal l' else Throw NOT_SO_ERROR, σ').
Proof.
  intros Hv. destruct (view_res_elems _ _ _ Hv) as (elems & Hel & Hfrags).
  set (f := {| type := k; value := v |}).
  set (σ1 := σ ++ [Store.FragmentCell f]).
  set (σ2 := σ1 ++ [Store.ArrayCell (elems ++ [length σ])]).
  set (σ3 := σ2 ++ [Store.ObjectCell (Some (length σ1))]).
  assert (σ `prefix_of` σ1) as H01 by by apply prefix_app_r.
  assert (σ1 `prefix_of` σ2) as H12 by by apply prefix_app_r.
  assert (σ2 `prefix_of` σ3) as H23 by by apply prefix_app_r.
  assert (σ `prefix_of` σ3) as H03 by (etrans; [| etrans]; done).
  assert (Store.view σ3 (length σ2) = Some (extended s k v)) as Hview.
  { apply (view_new_object σ1 (elems ++ [length σ]) _) with (array := length σ1).
    - apply fragments_at_snoc; [by eapply fragments_at_mono |].
      unfold Store.fragment_at, σ1. by rewrite lookup_snoc_new.
    - by etrans.
    - apply lookup_snoc_old, lookup_snoc_new.
    - apply lookup_snoc_new. }
  exists σ3, (length σ2). split; [done |]. split; [done |].
  unfold store_append.
  rewrite (bind_run _ _ σ σ elems) by done.
  rewrite (bind_run _ _ σ σ1 (length σ)) by done.
  rewrite (bind_run _ _ σ1 σ2 (length σ1)) by done.
  rewrite (bind_run _ _ σ2 σ3 (length σ2)) by done.
  pose proof (view_throwErrorIfNotSorted _ _ _ Hview) as Hscan.
  unfold throwErrorIfNotSorted in Hscan.
  destruct (isSorted (extended s k v)); cbn [negb] in Hscan.
  - by rewrite (bind_run _ _ σ3 σ3 tt).
  - by rewrite (bind_run_throw _ _ σ3 σ3 NOT_SO_ERROR).
Qed.

Lemma store_run_op_unfold (op : AppendOp) (this : Store.loc) (v : string) :
  Store.run_op op this v
  = if singleton_op op
    then twice ← Store.occurs (type_name (op_kind op)) this;
         if twice : bool then Store.throw TWICE_ERROR
         else store_append (op_kind op) this v
    else store_append (op_kind op) this v.
Proof. by destruct op. Qed.

Lemma store_run_op_refines (op : AppendOp) (σ : Store.store) (this : Store.loc)
    (s : Selector) (v : string) :
  Store.view σ this = Some s →
  refines (Store.run_op op this v σ).2 (Store.run_op op this v σ).1 (run_op op s v).
Proof.
  intros Hv.
  destruct (store_append_refines σ this s (op_kind op) v Hv)
    as (σ' & l' & _ & Hview & Happ).
  rewrite store_run_op_unfold, run_op_unfold.
  destruct (singleton_op op); cbn [andb].
  - rewrite (bind_run _ _ σ σ (occurs (type_name (op_kind op)) s))
      by by apply view_occurs.
    destruct (occurs (type_name (op_kind op)) s); [done |].
    rewrite Happ. by destruct (isSorted (extended s (op_kind op) v)).
  - rewrite Happ. by destruct (isSorted (extended s (op_kind op) v)).
Qed.

Lemma store_combine_refines (σ : Store.store) (this selector1 selector2 : Store.loc)
    (t a b : Selector) (c : string) :
  Store.view σ selector1 = Some a → Store.view σ selector2 = Some b →
  ∃ σ' l',
    Store.combine this selector1 c selector2 σ = (Normal l', σ')
    ∧ Store.view σ' l' = Some (combine t a c b).
Proof.
  intros Ha Hb.
  destruct (view_res_elems _ _ _ Ha) as (elems1 & Hel1 & Hfrags1).
  set (f := {| type := KCombinator; value := c |}).
  set (σ1 := σ ++ [Store.FragmentCell f]).
  assert (σ `prefix_of` σ1) as H01 by by apply prefix_app_r.
  destruct (view_res_elems σ1 selector2 b) as (elems2 & Hel2 & Hfrags2);
    [by eapply view_mono |].
  set (σ2 := σ1 ++ [Store.ArrayCell (elems1 ++ length σ :: elems2)]).
  set (σ3 := σ2 ++ [Store.ObjectCell (Some (length σ1))]).
  assert (σ1 `prefix_of` σ2) as H12 by by apply prefix_app_r.
  exists σ3, (length σ2). split.
  - unfold Store.combine.
    rewrite (bind_run _ _ σ σ elems1) by done.
    rewrite (bind_run _ _ σ σ1 (length σ)) by done.
    rewrite (bind_run _ _ σ1 σ1 elems2) by done.
    by rewrite (bind_run _ _ σ1 σ2 (length σ1)).
  - apply (view_new_object σ1 (elems1 ++ length σ :: elems2) _) with (array := length σ1).
    + apply mapM_Some, Forall2_app; [| constructor].
      * apply mapM_Some. by eapply fragments_at_mono.
      * unfold Store.fragment_at, σ1. by rewrite lookup_snoc_new.
      * by apply mapM_Some.
    + etrans; [exact H12 | by apply prefix_app_r].
    + apply lookup_snoc_old, lookup_snoc_new.
    + apply lookup_snoc_new.
Qed.

(** ** The order error *)

Lemma rank_spec_op_kind (op : AppendOp) : is_Some (rank_spec (op_kind op)).
Proof. by destruct op. Qed.

Lemma rank_spec_non_combinator (k : Kind) : k ≠ KCombinator → is_Some (rank_spec k).
Proof. by destruct k. Qed.

Lemma reachable_append_NOT_SO (op : AppendOp) (this : Selector) (v : string) :
  reachable this →
  singleton_op op && occurs (type_name (op_kind op)) this = false →
  run_op op this v = Throw NOT_SO_ERROR ↔
    ∃ (p : Fragment) (m n : nat),
      last (res_or_empty this) = Some p
      ∧ rank_spec (type p) = Some m ∧ rank_spec (op_kind op) = Some n ∧ (n < m)%nat.
Proof.
  intros Hreach Hdup.
  rewrite (sorted_append_NOT_SO op this v (reachable_isSorted _ Hreach) Hdup).
  destruct (rank_spec_op_kind op) as [n Hn].
  split.
  - intros (p & Hlast & Hlt).
    assert (type p ≠ KCombinator) as Hp.
    { pose proof (reachable_no_combinator _ Hreach) as Hall.
      rewrite Forall_forall in Hall. apply Hall.
      apply last_Some in Hlast as [l' ->]. apply elem_of_app. right. left. }
    destruct (rank_spec_non_combinator _ Hp) as [m Hm].
    exists p, m, n. repeat split; try done.
    rewrite !order_index_rank in Hlt. cbn [type] in Hlt.
    rewrite Hn, Hm in Hlt. lia.
  - intros (p & m & n' & Hlast & Hm & Hn' & Hlt). exists p. split; [done |].
    rewrite !order_index_rank. cbn [type]. rewrite Hm, Hn'. lia.
Qed.

(** C4, as the code has it: on a selector whose sequence passes the
    order scan (combinators counting as index -1), an append that gets
    past the duplicate test throws the order error exactly when the index
    of the new fragment's kind is below that of the last fragment; for
    selectors built by appending alone this is the comparison of the
    specification's ranks.  The scan covers the whole extended sequence,
    so on a selector that does not pass it every such append throws.
    When the order error is thrown no address is returned, and every
    selector of the store, the receiver included, reads as before. *)
Theorem order_error_iff :
  (∀ (op : AppendOp) (this : Selector) (v : string),
     isSorted this = true →
     singleton_op op && occurs (type_name (op_kind op)) this = false →
     run_op op this v = Throw NOT_SO_ERROR ↔
       ∃ p, last (res_or_empty this) = Some p
            ∧ order_index {| type := op_kind op; value := v |} < order_index p)
  ∧ (∀ (op : AppendOp) (this : Selector) (v : string),
       reachable this →
       singleton_op op && occurs (type_name (op_kind op)) this = false →
       run_op op this v = Throw NOT_SO_ERROR ↔
         ∃ (p : Fragment) (m n : nat),
           last (res_or_empty this) = Some p
           ∧ rank_spec (type p) = Some m ∧ rank_spec (op_kind op) = Some n
           ∧ (n < m)%nat)
  ∧ (∀ (op : AppendOp) (this : Selector) (v : string),
       isSorted this = false →
       singleton_op op && occurs (type_name (op_kind op)) this = false →
       run_op op this v = Throw NOT_SO_ERROR)
  ∧ (∀ (op : AppendOp) (σ : Store.store) (this : Store.loc) (s : Selector) (v : string),
       Store.view σ this = Some s →
       run_op op s v = Throw NOT_SO_ERROR →
       (Store.run_op op this v σ).1 = Throw NOT_SO_ERROR
       ∧ σ `prefix_of` (Store.run_op op this v σ).2
       ∧ ∀ l t, Store.view σ l = Some t →
                Store.view (Store.run_op op this v σ).2 l = Some t).
Proof.
  split; [exact sorted_append_NOT_SO |].
  split; [exact reachable_append_NOT_SO |].
  split.
  { intros op this v Hs Hdup. apply run_op_NOT_SO.
    split; [done | by apply unsorted_extended]. }
  intros op σ this s v Hv Hrun.
  pose proof (store_run_op_refines op σ this s v Hv) as Href.
  pose proof (grows_run_op op this v σ) as Hgrow.
  rewrite Hrun in Href. unfold refines in Href.
  destruct (Store.run_op op this v σ) as [[l'|message] σ']; cbn in *; [done |].
  split; [by rewrite Href |]. split; [done |].
  intros l t. by apply view_mono.
Qed.

Lemma order_error_iff_witness :
  let σ := (Store.class Store.builder "c" Store.initial).2 in
  (Store.id 3%nat "main" σ).1 = Throw NOT_SO_ERROR
  ∧ Store.view (Store.id 3%nat "main" σ).2 3%nat
    = Some {| res := Some [ {| type := KClass; value := "c" |} ] |}.
Proof.
  intros σ.
  destruct (proj2 (proj2 (proj2 order_error_iff)) OpId σ 3%nat
              {| res := Some [ {| type := KClass; value := "c" |} ] |} "main"
              eq_refl)
    as (Hthrow & _ & Hframe).
  - apply (proj1 order_error_iff OpId); [reflexivity | reflexivity |].
    exists {| type := KClass; value := "c" |}. split; [reflexivity | reflexivity].
  - split; [exact Hthrow |]. by apply Hframe.
Defined.

(** C4 as first stated does not hold.  The selector
    [combine(element('a'), '+', class('b'))] satisfies the data-model
    invariants, and on it [class('c')] throws the order error although
    the fragment just before the new one is a class, of the same rank 2:
    the scan meets the element followed by the combinator. *)
Lemma order_error_claim_counterexample :
  element cssSelectorBuilder "a" = Normal (extended cssSelectorBuilder KElement "a")
  ∧ class cssSelectorBuilder "b" = Normal (extended cssSelectorBuilder KClass "b")
  ∧ invariants
      (combine cssSelectorBuilder (extended cssSelectorBuilder KElement "a") "+"
         (extended cssSelectorBuilder KClass "b"))
  ∧ class
      (combine cssSelectorBuilder (extended cssSelectorBuilder KElement "a") "+"
         (extended cssSelectorBuilder KClass "b")) "c"
    = Throw NOT_SO_ERROR
  ∧ ¬ ∃ (p : Fragment) (m n : nat),
        last (res_or_empty
                (combine cssSelectorBuilder (extended cssSelectorBuilder KElement "a") "+"
                   (extended cssSelectorBuilder KClass "b")))
        = Some p
        ∧ rank_spec (type p) = Some m ∧ rank_spec KClass = Some n ∧ (n < m)%nat.
Proof.
  split; [reflexivity |]. split; [reflexivity |]. split; [| split; [reflexivity |]].
  - split; [vm_compute; lia | vm_compute; lia | vm_compute; lia |].
    intros i j f g Hij.
    replace (non_combinators _)
      with [ {| type := KElement; value := "a" |}; {| type := KClass; value := "b" |} ]
      by (vm_compute; reflexivity).
    intros Hi Hj.
    destruct i as [|[|i]], j as [|[|j]]; try lia; simplify_eq/=.
    exists 0%nat, 2%nat. repeat split; lia.
  - intros (p & m & n & Hlast & Hm & Hn & Hlt).
    vm_compute in Hlast. simplify_eq/=. lia.
Qed.

(** ** Nothing is mutated *)

(** C6: no method changes what it is given.  Every cell present before
    a call of an appending method or of [combine] is present, unchanged,
    after it, so every selector of the store (the receiver, the operands
    and any selector derived earlier) reads and renders as before; a
    selector can therefore be extended in several directions, each call
    behaving as if it were the only one.  With [s = class('a')], both
    [s.class('b')] and [s.attr('c')] succeed and [s] still renders as
    [.a]. *)
Theorem operations_do_not_mutate :
  (∀ (op : AppendOp) (this : Store.loc) (v : string) (σ : Store.store),
     σ `prefix_of` (Store.run_op op this v σ).2)
  ∧ (∀ (this selector1 selector2 : Store.loc) (c : string) (σ : Store.store),
       σ `prefix_of` (Store.combine this selector1 c selector2 σ).2)
  ∧ (∀ (op : AppendOp) (this : Store.loc) (v : string) (σ : Store.store)
       (l : Store.loc) (s : Selector),
       Store.view σ l = Some s →
       let σ' := (Store.run_op op this v σ).2 in
       Store.view σ' l = Some s
       ∧ Store.stringify l σ' = (Normal (stringify s), σ'))
  ∧ (∀ (this selector1 selector2 : Store.loc) (c : string) (σ : Store.store)
       (l : Store.loc) (s : Selector),
       Store.view σ l = Some s →
       let σ' := (Store.combine this selector1 c selector2 σ).2 in
       Store.view σ' l = Some s
       ∧ Store.stringify l σ' = (Normal (stringify s), σ'))
  ∧ (∀ (op1 op2 : AppendOp) (this : Store.loc) (v1 v2 : string) (σ : Store.store)
       (s : Selector),
       Store.view σ this = Some s →
       let σ1 := (Store.run_op op1 this v1 σ).2 in
       refines (Store.run_op op2 this v2 σ1).2 (Store.run_op op2 this v2 σ1).1
         (run_op op2 s v2))
  ∧ ((s ← Store.class Store.builder "a";
      s1 ← Store.class s "b";
      s2 ← Store.attr s "c";
      r ← Store.stringify s;
      r1 ← Store.stringify s1;
      r2 ← Store.stringify s2;
      mret (r, r1, r2)) Store.initial).1
    = Normal (".a", ".a.b", ".a[c]").
Proof.
  split; [intros; apply grows_run_op |].
  split; [intros; apply grows_combine |].
  split.
  { intros op this v σ l s Hv σ'.
    assert (Store.view σ' l = Some s) as Hv'
      by (eapply view_mono; [apply grows_run_op | done]).
    split; [done | by apply view_stringify]. }
  split.
  { intros this selector1 selector2 c σ l s Hv σ'.
    assert (Store.view σ' l = Some s) as Hv'
      by (eapply view_mono; [apply grows_combine | done]).
    split; [done | by apply view_stringify]. }
  split.
  { intros op1 op2 this v1 v2 σ s Hv σ1.
    apply store_run_op_refines.
    eapply view_mono; [apply grows_run_op | done]. }
  vm_compute. reflexivity.
Qed.

Lemma operations_do_not_mutate_witness :
  let σ := (Store.class Store.builder "a" Store.initial).2 in
  let s := {| res := Some [ {| type := KClass; value := "a" |} ] |} in
  let σ' := (Store.class 3%nat "b" σ).2 in
  let σ'' := (Store.combine Store.builder 3%nat ">" 3%nat σ).2 in
  (Store.view σ' 3%nat = Some s ∧ Store.stringify 3%nat σ' = (Normal ".a", σ'))
  ∧ (Store.view σ'' 3%nat = Some s ∧ Store.stringify 3%nat σ'' = (Normal ".a", σ'')).
Proof.
  intros σ s σ' σ''. split.
  - apply (proj1 (proj2 (proj2 operations_do_not_mutate)) OpClass 3%nat "b" σ 3%nat s).
    reflexivity.
  - apply (proj1 (proj2 (proj2 (proj2 operations_do_not_mutate)))
             Store.builder 3%nat 3%nat ">" σ 3%nat s).
    reflexivity.
Defined.

(** ** combine *)

(** C5: [combine] returns a selector whose fragments are those of the
    first operand, then one combinator fragment carrying the given
    string, then those of the second operand.  It is defined on all
    operands and does not validate the result, which may repeat a
    singleton kind and fail the order scan; the combinator string is not
    restricted and shows up as given, between two spaces, in the
    rendering.  On the store, the call completes normally for all
    operands that are selectors, and returns the spliced selector. *)
Theorem combine_splices :
  (∀ (this a b : Selector) (c : string),
     res (combine this a c b)
     = Some (res_or_empty a ++ [{| type := KCombinator; value := c |}] ++ res_or_empty b)
     ∧ stringify (combine this a c b)
       = stringify a +:+ " " +:+ c +:+ " " +:+ stringify b)
  ∧ (let a := {| res := Some [ {| type := KClass; value := "c" |} ] |} in
     let b := {| res := Some [ {| type := KElement; value := "p" |};
                               {| type := KId; value := "x" |} ] |} in
     let s := combine cssSelectorBuilder (combine cssSelectorBuilder b "foo" a) "" b in
     count_kind KElement (res_or_empty s) = 2%nat
     ∧ count_kind KId (res_or_empty s) = 2%nat
     ∧ isSorted s = false
     ∧ stringify s = "p#x foo .c  p#x")
  ∧ (∀ (σ : Store.store) (this selector1 selector2 : Store.loc)
       (a b : Selector) (c : string),
       Store.view σ selector1 = Some a → Store.view σ selector2 = Some b →
       ∃ l', (Store.combine this selector1 c selector2 σ).1 = Normal l'
             ∧ Store.view (Store.combine this selector1 c selector2 σ).2 l'
               = Some (combine cssSelectorBuilder a c b)).
Proof.
  split; [| split].
  - intros this a b c. split; [reflexivity | apply stringify_combine].
  - repeat split; vm_compute; reflexivity.
  - intros σ this selector1 selector2 a b c Ha Hb.
    destruct (store_combine_refines σ this selector1 selector2
                cssSelectorBuilder a b c Ha Hb) as (σ' & l' & Hrun & Hview).
    exists l'. by rewrite Hrun.
Qed.

Lemma combine_splices_witness :
  let σ := (Store.id Store.builder "x" Store.initial).2 in
  ∃ l', (Store.combine Store.builder 3%nat "~" 3%nat σ).1 = Normal l'
        ∧ Store.view (Store.combine Store.builder 3%nat "~" 3%nat σ).2 l'
          = Some {| res := Some [ {| type := KId; value := "x" |};
                                  {| type := KCombinator; value := "~" |};
                                  {| type := KId; value := "x" |} ] |}.
Proof.
  intros σ.
  exact (proj2 (proj2 combine_splices) σ Store.builder 3%nat 3%nat
           {| res := Some [ {| type := KId; value := "x" |} ] |}
           {| res := Some [ {| type := KId; value := "x" |} ] |}
           "~" eq_refl eq_refl).
Defined.

(** C10: the bare facade, which has no [res] at all, is accepted by
    [combine] as either operand and counts as a selector without
    fragments; combining the facade with itself gives a selector whose
    only fragment is the combinator, rendered as the string between two
    spaces; so it is on the store in which only the facade exists. *)
Theorem combine_facade :
  res cssSelectorBuilder = None
  ∧ (∀ (this : Selector) (c : string),
       res (combine this cssSelectorBuilder c cssSelectorBuilder)
       = Some [{| type := KCombinator; value := c |}]
       ∧ stringify (combine this cssSelectorBuilder c cssSelectorBuilder)
         = " " +:+ c +:+ " ")
  ∧ stringify (combine cssSelectorBuilder cssSelectorBuilder "+" cssSelectorBuilder) = " + "
  ∧ (∀ (this a : Selector) (c : string),
       res (combine this cssSelectorBuilder c a)
       = Some ({| type := KCombinator; value := c |} :: res_or_empty a)
       ∧ res (combine this a c cssSelectorBuilder)
         = Some (res_or_empty a ++ [{| type := KCombinator; value := c |}]))
  ∧ (∀ c : string,
       ((l ← Store.combine Store.builder Store.builder c Store.builder;
         Store.stringify l) Store.initial).1
       = Normal (" " +:+ c +:+ " ")).
Proof.
  assert (∀ (this : Selector) (c : string),
            stringify (combine this cssSelectorBuilder c cssSelectorBuilder)
            = " " +:+ c +:+ " ") as Hstr.
  { intros this c. rewrite stringify_combine.
    change (stringify cssSelectorBuilder) with "".
    by rewrite append_nil_l, append_nil_r. }
  split; [reflexivity |]. split; [| split; [| split]].
  - intros this c. split; [reflexivity | apply Hstr].
  - vm_compute; reflexivity.
  - intros this a c. split; reflexivity.
  - intros c.
    destruct (store_combine_refines Store.initial Store.builder Store.builder
                Store.builder cssSelectorBuilder cssSelectorBuilder
                cssSelectorBuilder c eq_refl eq_refl)
      as (σ' & l' & Hrun & Hview).
    rewrite (bind_run _ _ _ _ _ Hrun), (view_stringify _ _ _ Hview).
    cbn [fst]. by rewrite Hstr.
Qed.

(** * Properties beyond the claims *)

(** ** The order scan, pair by pair *)

Lemma adjacent_ordered_cons (x : Fragment) (l : list Fragment) :
  adjacent_ordered (x :: l)
  ↔ (∀ f, head l = Some f → order_index x ≤ order_index f) ∧ adjacent_ordered l.
Proof.
  split.
  - intros Hadj. split.
    + intros f Hf. apply (Hadj 0%nat x f); [done |]. by destruct l; simplify_eq/=.
    + intros i p f Hp Hf. by apply (Hadj (S i) p f).
  - intros [Hhd Hadj] [|i] p f Hp Hf; simplify_eq/=.
    + apply Hhd. by destruct l; simplify_eq/=.
    + by apply (Hadj i).
Qed.

Lemma chain_adjacent (prev : option Fragment) (l : list Fragment) :
  chain prev l = true
  ↔ (∀ f, head l = Some f → follows prev f = true) ∧ adjacent_ordered l.
Proof.
  revert prev. induction l as [|x l IH]; intros prev.
  - split; [| done]. intros _. split; [done |]. intros i p f Hp. done.
  - change (chain prev (x :: l)) with (follows prev x && chain (Some x) l).
    rewrite andb_true_iff, IH, adjacent_ordered_cons. cbn [head follows].
    setoid_rewrite Z.leb_le. split.
    + intros (Hx & Hhd & Hadj). split; [by intros f [= <-] | done].
    + intros (Hx & Hhd & Hadj). split; [by apply Hx | done].
Qed.

Lemma chain_violation (prev : option Fragment) (l : list Fragment) :
  chain prev l = false
  ↔ (∃ f, head l = Some f ∧ follows prev f = false)
    ∨ ∃ (i : nat) (p f : Fragment),
        l !! i = Some p ∧ l !! S i = Some f ∧ order_index f < order_index p.
Proof.
  revert prev. induction l as [|x l IH]; intros prev.
  - split; [done |]. intros [(f & Hf & _) | (i & p & f & Hp & _)]; done.
  - change (chain prev (x :: l)) with (follows prev x && chain (Some x) l).
    rewrite andb_false_iff, IH. cbn [head follows]. split.
    + intros [Hx | [(f & Hf & Hlt) | (i & p & f & Hp & Hf & Hlt)]].
      * left. by exists x.
      * right. exists 0%nat, x, f. apply Z.leb_gt in Hlt.
        split; [done |]. split; [by destruct l; simplify_eq/= | done].
      * right. by exists (S i), p, f.
    + intros [(f & [= <-] & Hx) | (i & p & f & Hp & Hf & Hlt)]; [by left |].
      right. destruct i as [|i]; simplify_eq/=.
      * left. exists f. split; [by destruct l; simplify_eq/= | by apply Z.leb_gt].
      * right. by exists i, p, f.
Qed.

(** X1: [throwErrorIfNotSorted] returns normally exactly when every
    fragment's type comes, in [order], at or after the type of the
    fragment just before it, and throws the order error exactly when some
    fragment comes strictly before its predecessor. *)
Theorem scan_adjacent_pairs (this : Selector) :
  (throwErrorIfNotSorted this = Normal tt ↔ adjacent_ordered (res_or_empty this))
  ∧ (throwErrorIfNotSorted this = Throw NOT_SO_ERROR
     ↔ ∃ (i : nat) (p f : Fragment),
         res_or_empty this !! i = Some p ∧ res_or_empty this !! S i = Some f
         ∧ order_index f < order_index p).
Proof.
  unfold throwErrorIfNotSorted. rewrite isSorted_chain.
  pose proof (chain_adjacent None (res_or_empty this)) as Hok.
  pose proof (chain_violation None (res_or_empty this)) as Hbad.
  destruct (chain None (res_or_empty this)); cbn [negb]; split.
  - split; [intros _; by apply Hok | done].
  - split; [done |]. intros Hex.
    assert (true = false) by (apply Hbad; by right). done.
  - split; [done |]. intros Hadj.
    assert (false = true) by (apply Hok; split; [done | exact Hadj]). done.
  - split; [| done]. intros _.
    destruct (proj1 Hbad eq_refl) as [(f & _ & Hf) | Hex]; [done | exact Hex].
Qed.

(** ** What a successful append returns *)

(** X2: when an appending method returns, the new selector holds the
    receiver's fragments followed by one fragment of the method's kind
    with the given text, its rendering is the receiver's rendering
    followed by that fragment's, and both the receiver and the result
    pass the order scan. *)
Theorem append_success (op : AppendOp) (this s' : Selector) (v : string) :
  run_op op this v = Normal s' →
  res s' = Some (res_or_empty this ++ [{| type := op_kind op; value := v |}])
  ∧ stringify s' = stringify this +:+ render_spec {| type := op_kind op; value := v |}
  ∧ isSorted this = true
  ∧ isSorted s' = true.
Proof.
  intros Hrun. apply run_op_Normal in Hrun as (_ & Hsorted & ->).
  split; [done |]. split; [| split; [| done]].
  - rewrite !stringify_concat, res_or_empty_extended, fmap_app, concat_strings_app.
    f_equal. apply append_nil_r.
  - rewrite isSorted_extended in Hsorted. by apply andb_true_iff in Hsorted as [? _].
Qed.

Lemma append_success_witness :
  res {| res := Some [ {| type := KId; value := "main" |};
                       {| type := KAttribute; value := "href" |} ] |}
  = Some (res_or_empty (extended cssSelectorBuilder KId "main")
          ++ [{| type := op_kind OpAttr; value := "href" |}])
  ∧ stringify {| res := Some [ {| type := KId; value := "main" |};
                               {| type := KAttribute; value := "href" |} ] |}
    = stringify (extended cssSelectorBuilder KId "main")
      +:+ render_spec {| type := op_kind OpAttr; value := "href" |}
  ∧ isSorted (extended cssSelectorBuilder KId "main") = true
  ∧ isSorted {| res := Some [ {| type := KId; value := "main" |};
                              {| type := KAttribute; value := "href" |} ] |} = true.
Proof.
  apply (append_success OpAttr (extended cssSelectorBuilder KId "main") _ "href").
  reflexivity.
Defined.

(** X3: on the facade, and on any selector without fragments, each of
    the six appending methods returns, whatever the text: the result
    holds the one new fragment. *)
Theorem first_append_succeeds (op : AppendOp) (this : Selector) (v : string) :
  res_or_empty this = [] →
  run_op op this v = Normal {| res := Some [{| type := op_kind op; value := v |}] |}.
Proof.
  intros Hnil. apply run_op_Normal.
  assert (extended this (op_kind op) v
          = {| res := Some [{| type := op_kind op; value := v |}] |}) as Hext
    by (unfold extended; by rewrite Hnil).
  split; [| split; [| done]].
  - rewrite occurs_count, Hnil. cbn. apply andb_false_r.
  - by rewrite Hext, isSorted_chain.
Qed.

Lemma first_append_succeeds_witness :
  run_op OpPseudoElement cssSelectorBuilder "first-line"
  = Normal {| res := Some [{| type := KPseudoElement; value := "first-line" |}] |}.
Proof. apply (first_append_succeeds OpPseudoElement). reflexivity. Defined.

(** ** combine, composed *)

(** X4: nesting [combine] to the left or to the right gives the same
    selector, which renders as the three operands separated by the two
    combinator strings, each between two spaces. *)
Theorem combine_assoc (t1 t2 t3 t4 a b d : Selector) (c1 c2 : string) :
  combine t1 (combine t2 a c1 b) c2 d = combine t3 a c1 (combine t4 b c2 d)
  ∧ stringify (combine t1 (combine t2 a c1 b) c2 d)
    = stringify a +:+ " " +:+ c1 +:+ " " +:+ stringify b
      +:+ " " +:+ c2 +:+ " " +:+ stringify d.
Proof.
  split.
  - unfold combine. cbn [res_or_empty res]. by rewrite <- app_assoc.
  - by rewrite !stringify_combine, !append_assoc.
Qed.

(** ** Exactly the selectors that satisfy the invariants can be built *)

Lemma op_of_kind (k : Kind) : k ≠ KCombinator → ∃ op, op_kind op = k.
Proof.
  destruct k; intros Hk;
    [ by exists OpElement | by exists OpId | by exists OpClass | by exists OpAttr
    | by exists OpPseudoClass | by exists OpPseudoElement | done ].
Qed.

Lemma rank_ordered_adjacent (l : list Fragment) :
  Forall (λ f, type f ≠ KCombinator) l → rank_ordered l → adjacent_ordered l.
Proof.
  intros Hall Hrank i p f Hp Hf.
  unfold rank_ordered, non_combinators in Hrank.
  rewrite (filter_Forall_id _ _ Hall) in Hrank.
  destruct (Hrank i (S i) p f) as (m & n & Hm & Hn & Hle); [lia | done | done |].
  rewrite !order_index_rank, Hm, Hn. lia.
Qed.

(** A combinator-free sequence that passes the scan and repeats no
    singleton kind is the result of a chain of appends. *)
Lemma sorted_buildable (l : list Fragment) :
  Forall (λ f, type f ≠ KCombinator) l →
  (count_kind KElement l ≤ 1)%nat → (count_kind KId l ≤ 1)%nat →
  (count_kind KPseudoElement l ≤ 1)%nat →
  chain None l = true →
  reachable {| res := Some l |}.
Proof.
  induction l as [|f l IH] using rev_ind; intros Hall He Hi Hpe Hc.
  - by apply reachable_empty.
  - apply Forall_app in Hall as [Hall Hf]. rewrite Forall_singleton in Hf.
    rewrite count_kind_snoc in He, Hi, Hpe.
    pose proof Hc as Hc'. rewrite chain_snoc in Hc'.
    apply andb_true_iff in Hc' as [Hl _].
    destruct (op_of_kind _ Hf) as [op Hop].
    apply (reachable_append op {| res := Some l |} _ (value f)).
    + apply IH; [done | lia | lia | lia | done].
    + apply run_op_Normal. rewrite occurs_count, Hop. cbn [res_or_empty res].
      assert (extended {| res := Some l |} (type f) (value f)
              = {| res := Some (l ++ [f]) |}) as Hext by by destruct f.
      split; [| split; [by rewrite Hext, isSorted_chain | done]].
      destruct (singleton_op op) eqn:Hs; [| done]. cbn [andb].
      apply bool_decide_eq_false. intros Hne. apply Hne.
      destruct op; try done; cbn [op_kind] in *;
        [ rewrite <- Hop, decide_True in He by done
        | rewrite <- Hop, decide_True in Hi by done
        | rewrite <- Hop, decide_True in Hpe by done ];
        rewrite <- Hop; lia.
Qed.

(** X5: the selectors that chains of appending methods produce are
    exactly those that satisfy the data-model invariants and hold no
    combinator. *)
Theorem reachable_iff_invariants (this : Selector) :
  reachable this
  ↔ invariants this ∧ Forall (λ f, type f ≠ KCombinator) (res_or_empty this).
Proof.
  split.
  - intros Hreach. split; [| by apply reachable_no_combinator].
    split.
    + by apply (reachable_count this OpElement).
    + by apply (reachable_count this OpId).
    + by apply (reachable_count this OpPseudoElement).
    + apply sorted_rank_ordered; [| by apply reachable_no_combinator].
      rewrite <- isSorted_chain. by apply reachable_isSorted.
  - intros [[He Hi Hpe Hrank] Hall].
    destruct this as [[l|]]; [| by apply reachable_empty].
    cbn [res_or_empty res] in *.
    apply sorted_buildable; try done.
    apply chain_adjacent. split; [done |]. by apply rank_ordered_adjacent.
Qed.

(** ** The order scan on the result of combine *)

Lemma order_index_ge (f : Fragment) : -1 ≤ order_index f.
Proof. destruct f as [[] v]; vm_compute; discriminate. Qed.

Lemma order_index_combinator_iff (f : Fragment) :
  order_index f ≤ -1 ↔ type f = KCombinator.
Proof.
  split.
  - intros Hle. destruct (decide (type f = KCombinator)) as [| Hne]; [done |].
    pose proof (order_index_non_combinator f Hne). lia.
  - intros Hk. rewrite (order_index_combinator f Hk). lia.
Qed.

Lemma chain_Some_combinator (g : Fragment) (l : list Fragment) :
  type g = KCombinator → chain (Some g) l = chain None l.
Proof.
  intros Hg. destruct l as [|x l]; [done |]. cbn [chain]. f_equal.
  apply Z.leb_le. rewrite (order_index_combinator g Hg). apply order_index_ge.
Qed.

Lemma follows_combinator (g f : Fragment) :
  type g = KCombinator → follows (Some g) f = true.
Proof.
  intros Hg. apply Z.leb_le. rewrite (order_index_combinator g Hg).
  apply order_index_ge.
Qed.

Lemma combinators_sorted (l : list Fragment) (g : Fragment) :
  type g = KCombinator →
  chain None l = true ∧ follows (last l) g = true
  ↔ Forall (λ f, type f = KCombinator) l.
Proof.
  intros Hg. split.
  - intros [Hc Hlast]. destruct l as [|p l _] using rev_ind; [constructor |].
    rewrite last_snoc in Hlast. apply Z.leb_le in Hlast.
    rewrite (order_index_combinator g Hg) in Hlast.
    apply Forall_lookup. intros i f Hf.
    apply order_index_combinator_iff.
    destruct (decide (i = length l)) as [-> | Hne].
    + rewrite lookup_snoc_new in Hf. by simplify_eq.
    + assert (i < length (l ++ [p]))%nat as Hlt by by eapply lookup_lt_Some.
      rewrite length_app in Hlt. cbn in Hlt.
      pose proof (chain_lookup_le None (l ++ [p]) i (length l) f p Hc
                    ltac:(lia) Hf (lookup_snoc_new l p)).
      lia.
  - intros Hall. split.
    + apply chain_adjacent. split; [done |]. intros i p f Hp Hf.
      rewrite Forall_lookup in Hall.
      rewrite (order_index_combinator p (Hall _ _ Hp)),
        (order_index_combinator f (Hall _ _ Hf)). lia.
    + destruct (last l) as [p|] eqn:Hlast; [| done].
      apply follows_combinator.
      rewrite Forall_forall in Hall. apply Hall.
      apply last_Some in Hlast as [l' ->]. apply elem_of_app. right. left.
Qed.

Lemma isSorted_combine (t a b : Selector) (c : string) :
  isSorted (combine t a c b)
  = chain None (res_or_empty a)
    && follows (last (res_or_empty a)) {| type := KCombinator; value := c |}
    && isSorted b.
Proof.
  rewrite !isSorted_chain.
  change (res_or_empty (combine t a c b))
    with (res_or_empty a ++ {| type := KCombinator; value := c |} :: res_or_empty b).
  rewrite chain_app. cbn [chain]. rewrite chain_Some_combinator by done.
  rewrite andb_assoc. f_equal. f_equal. by destruct (last (res_or_empty a)).
Qed.

Lemma isSorted_combine_iff (t a b : Selector) (c : string) :
  isSorted (combine t a c b) = true
  ↔ Forall (λ f, type f = KCombinator) (res_or_empty a) ∧ isSorted b = true.
Proof.
  rewrite isSorted_combine, !andb_true_iff.
  by rewrite (combinators_sorted _ {| type := KCombinator; value := c |}).
Qed.

(** X6: the result of [combine] passes the order scan exactly when the
    first operand holds nothing but combinators and the second operand
    passes the scan.  Hence, as soon as the first operand holds an
    element, id, class, attribute, pseudo-class or pseudo-element, each
    of the six appending methods throws on the combination: the
    duplicate error when its own test fires, the order error
    otherwise. *)
Theorem combine_scan :
  (∀ (t a b : Selector) (c : string),
     throwErrorIfNotSorted (combine t a c b) = Normal tt
     ↔ Forall (λ f, type f = KCombinator) (res_or_empty a)
       ∧ throwErrorIfNotSorted b = Normal tt)
  ∧ (∀ (op : AppendOp) (t a b : Selector) (c v : string) (f : Fragment),
       f ∈ res_or_empty a → type f ≠ KCombinator →
       run_op op (combine t a c b) v
       = if singleton_op op && occurs (type_name (op_kind op)) (combine t a c b)
         then Throw TWICE_ERROR
         else Throw NOT_SO_ERROR).
Proof.
  assert (∀ s, throwErrorIfNotSorted s = Normal tt ↔ isSorted s = true) as Hscan.
  { intros s. unfold throwErrorIfNotSorted. by destruct (isSorted s). }
  split.
  - intros t a b c. rewrite !Hscan. apply isSorted_combine_iff.
  - intros op t a b c v f Hin Hf. rewrite run_op_unfold.
    assert (isSorted (combine t a c b) = false) as Hs.
    { destruct (isSorted (combine t a c b)) eqn:Hs; [| done].
      apply isSorted_combine_iff in Hs as [Hall _].
      rewrite Forall_forall in Hall. by destruct (Hf (Hall f Hin)). }
    by rewrite (unsorted_extended _ _ _ Hs).
Qed.

Lemma combine_scan_witness :
  run_op OpElement
    (combine cssSelectorBuilder
       {| res := Some [ {| type := KId; value := "x" |} ] |} "~" cssSelectorBuilder)
    "p"
  = Throw NOT_SO_ERROR.
Proof.
  exact (proj2 combine_scan OpElement cssSelectorBuilder
           {| res := Some [ {| type := KId; value := "x" |} ] |}
           cssSelectorBuilder "~" "p" {| type := KId; value := "x" |}
           ltac:(left) ltac:(discriminate)).
Defined.

Lemma count_kind_app (k : Kind) (l1 l2 : list Fragment) :
  count_kind k (l1 ++ l2) = (count_kind k l1 + count_kind k l2)%nat.
Proof. unfold count_kind. by rewrite filter_app, length_app. Qed.

Lemma count_kind_other (k : Kind) (l : list Fragment) :
  Forall (λ f, type f ≠ k) l → count_kind k l = 0%nat.
Proof.
  intros Hall. destruct (decide (count_kind k l = 0%nat)) as [| Hne]; [done |].
  apply count_kind_pos in Hne as (f & Hin & Hk).
  rewrite Forall_forall in Hall. by destruct (Hall f Hin).
Qed.

Lemma last_app_cons {A} (l1 l2 : list A) (x : A) :
  last (l1 ++ x :: l2) = Some (default x (last l2)).
Proof.
  destruct l2 as [|y l2 _] using rev_ind.
  - by rewrite last_snoc.
  - by rewrite app_comm_cons, app_assoc, !last_snoc.
Qed.

(** Behind a first operand made of combinators only, an append meets
    the same duplicate test and the same order test as on the second
    operand alone. *)
Lemma append_after_prefix (op : AppendOp) (t a b : Selector) (c v : string) :
  Forall (λ f, type f = KCombinator) (res_or_empty a) →
  occurs (type_name (op_kind op)) (combine t a c b) = occurs (type_name (op_kind op)) b
  ∧ isSorted (extended (combine t a c b) (op_kind op) v)
    = isSorted (extended b (op_kind op) v).
Proof.
  intros Hall. split.
  - rewrite !occurs_count.
    change (res_or_empty (combine t a c b))
      with (res_or_empty a ++ [{| type := KCombinator; value := c |}] ++ res_or_empty b).
    rewrite !count_kind_app.
    rewrite (count_kind_other _ (res_or_empty a)), (count_kind_other _ [_]); [done | |].
    + constructor; [by destruct op | constructor].
    + eapply Forall_impl; [exact Hall |]. intros f ->. by destruct op.
  - rewrite !isSorted_extended.
    assert (isSorted (combine t a c b) = isSorted b) as ->.
    { pose proof (isSorted_combine_iff t a b c) as Hiff.
      destruct (isSorted (combine t a c b)), (isSorted b); try done.
      - by destruct (proj1 Hiff eq_refl).
      - by apply (proj2 Hiff). }
    f_equal.
    change (res_or_empty (combine t a c b))
      with (res_or_empty a ++ {| type := KCombinator; value := c |} :: res_or_empty b).
    rewrite last_app_cons.
    destruct (last (res_or_empty b)) as [p|]; [done |]. by apply follows_combinator.
Qed.

(** X7: when the first operand of [combine] is the facade, or holds
    combinators only, an appending method on the combination returns
    exactly when it returns on the second operand alone, and otherwise
    throws the same error. *)
Theorem append_after_empty_left (op : AppendOp) (t a b : Selector) (c v : string) :
  Forall (λ f, type f = KCombinator) (res_or_empty a) →
  (run_op op (combine t a c b) v
   = Normal (extended (combine t a c b) (op_kind op) v)
   ↔ run_op op b v = Normal (extended b (op_kind op) v))
  ∧ (∀ message, run_op op (combine t a c b) v = Throw message
                ↔ run_op op b v = Throw message).
Proof.
  intros Hall.
  destruct (append_after_prefix op t a b c v Hall) as [Hocc Hsort].
  rewrite !run_op_unfold, Hocc, Hsort.
  destruct (singleton_op op && occurs (type_name (op_kind op)) b),
    (isSorted (extended b (op_kind op) v)); split; try done;
    intros message; done.
Qed.

Lemma append_after_empty_left_witness :
  (run_op OpClass
     (combine cssSelectorBuilder cssSelectorBuilder ">"
        {| res := Some [ {| type := KId; value := "x" |} ] |}) "c"
   = Normal (extended
               (combine cssSelectorBuilder cssSelectorBuilder ">"
                  {| res := Some [ {| type := KId; value := "x" |} ] |})
               KClass "c")
   ↔ run_op OpClass {| res := Some [ {| type := KId; value := "x" |} ] |} "c"
     = Normal (extended {| res := Some [ {| type := KId; value := "x" |} ] |} KClass "c"))
  ∧ (∀ message,
       run_op OpClass
         (combine cssSelectorBuilder cssSelectorBuilder ">"
            {| res := Some [ {| type := KId; value := "x" |} ] |}) "c"
       = Throw message
       ↔ run_op OpClass {| res := Some [ {| type := KId; value := "x" |} ] |} "c"
         = Throw message).
Proof.
  apply (append_after_empty_left OpClass cssSelectorBuilder cssSelectorBuilder
           {| res := Some [ {| type := KId; value := "x" |} ] |} ">" "c").
  constructor.
Defined.

(** X8: the duplicate test of [element], [id] and [pseudoElement] looks
    at the whole sequence, across combinators: on a combination either of
    whose operands holds a fragment of the method's kind, the method
    throws the duplicate error. *)
Theorem duplicate_across_combine (op : AppendOp) (t a b : Selector) (c v : string) :
  singleton_op op = true →
  has_kind (op_kind op) a ∨ has_kind (op_kind op) b →
  run_op op (combine t a c b) v = Throw TWICE_ERROR.
Proof.
  intros Hop Hk. apply duplicate_throws; [done |].
  unfold has_kind in *.
  change (res_or_empty (combine t a c b))
    with (res_or_empty a ++ {| type := KCombinator; value := c |} :: res_or_empty b).
  destruct Hk as [(f & Hin & Hf) | (f & Hin & Hf)]; exists f; (split; [| done]);
    apply elem_of_app; [by left | right; by right].
Qed.

Lemma duplicate_across_combine_witness :
  run_op OpElement
    (combine cssSelectorBuilder cssSelectorBuilder ">"
       {| res := Some [ {| type := KElement; value := "p" |} ] |}) "q"
  = Throw TWICE_ERROR.
Proof.
  apply duplicate_across_combine; [reflexivity |].
  right. exists {| type := KElement; value := "p" |}. split; [left | reflexivity].
Defined.

(** ** Validation looks at types only *)

Lemma order_index_type (f g : Fragment) :
  type f = type g → order_index f = order_index g.
Proof. unfold order_index. by intros ->. Qed.

Lemma chain_kinds (l1 l2 : list Fragment) (prev1 prev2 : option Fragment) :
  type <$> l1 = type <$> l2 → type <$> prev1 = type <$> prev2 →
  chain prev1 l1 = chain prev2 l2.
Proof.
  revert l2 prev1 prev2.
  induction l1 as [|x l1 IH]; intros [|y l2] prev1 prev2 Hl Hprev;
    simplify_eq/=; [done |].
  f_equal.
  - destruct prev1 as [p|], prev2 as [q|]; simplify_eq/=; [| done].
    by rewrite (order_index_type p q), (order_index_type x y).
  - apply IH; [done |]. cbn. by f_equal.
Qed.

Lemma count_kind_kinds (k : Kind) (l1 l2 : list Fragment) :
  type <$> l1 = type <$> l2 → count_kind k l1 = count_kind k l2.
Proof.
  revert l2. induction l1 as [|x l1 IH]; intros [|y l2] Hl; simplify_eq/=; [done |].
  unfold count_kind in *. rewrite !filter_cons.
  replace (type y) with (type x) by done.
  destruct (decide (type x = k)); cbn; by rewrite (IH l2).
Qed.

(** X9: whether an appending method returns or throws, and which error
    it throws, depends on the receiver's sequence of fragment types and
    on nothing else: neither the texts already stored nor the text passed
    (which may be empty) are looked at. *)
Theorem validation_ignores_text (op : AppendOp) (s1 s2 : Selector) (v w : string) :
  kinds s1 = kinds s2 →
  (run_op op s1 v = Normal (extended s1 (op_kind op) v)
   ↔ run_op op s2 w = Normal (extended s2 (op_kind op) w))
  ∧ (∀ message, run_op op s1 v = Throw message ↔ run_op op s2 w = Throw message).
Proof.
  unfold kinds. intros Hk.
  assert (occurs (type_name (op_kind op)) s1 = occurs (type_name (op_kind op)) s2) as Hocc.
  { rewrite !occurs_count. by rewrite (count_kind_kinds _ _ _ Hk). }
  assert (isSorted (extended s1 (op_kind op) v) = isSorted (extended s2 (op_kind op) w))
    as Hsort.
  { rewrite !isSorted_chain, !res_or_empty_extended.
    apply chain_kinds; [| done]. rewrite !fmap_app. by f_equal. }
  rewrite !run_op_unfold, Hocc, Hsort.
  destruct (singleton_op op && occurs (type_name (op_kind op)) s2),
    (isSorted (extended s2 (op_kind op) w)); split; try done;
    intros message; done.
Qed.

Lemma validation_ignores_text_witness :
  (run_op OpId {| res := Some [ {| type := KElement; value := "a" |} ] |} ""
   = Normal (extended {| res := Some [ {| type := KElement; value := "a" |} ] |} KId "")
   ↔ run_op OpId {| res := Some [ {| type := KElement; value := "div" |} ] |} "main"
     = Normal (extended {| res := Some [ {| type := KElement; value := "div" |} ] |}
                 KId "main"))
  ∧ (∀ message,
       run_op OpId {| res := Some [ {| type := KElement; value := "a" |} ] |} ""
       = Throw message
       ↔ run_op OpId {| res := Some [ {| type := KElement; value := "div" |} ] |} "main"
         = Throw message).
Proof.
  apply (validation_ignores_text OpId
           {| res := Some [ {| type := KElement; value := "a" |} ] |}
           {| res := Some [ {| type := KElement; value := "div" |} ] |} "" "main").
  reflexivity.
Defined.

(** ** The documented shape *)

Lemma fragments_of_type (k : Kind) (vs : list string) :
  Forall (λ f, type f = k) (fragments_of k vs).
Proof. unfold fragments_of. apply Forall_fmap. by apply Forall_true. Qed.

Lemma count_kind_fragments_of (k k' : Kind) (vs : list string) :
  count_kind k (fragments_of k' vs) = if decide (k' = k) then length vs else 0%nat.
Proof.
  destruct (decide (k' = k)) as [-> | Hne].
  - unfold count_kind. rewrite (filter_Forall_id _ _ (fragments_of_type k vs)).
    unfold fragments_of. by rewrite length_fmap.
  - apply count_kind_other. eapply Forall_impl; [apply fragments_of_type |].
    by intros f ->.
Qed.

Lemma chain_app_bound (n : Z) (l1 l2 : list Fragment) :
  chain None l1 = true → chain None l2 = true →
  Forall (λ f, order_index f ≤ n) l1 → Forall (λ f, n ≤ order_index f) l2 →
  chain None (l1 ++ l2) = true.
Proof.
  rewrite !chain_adjacent, !Forall_lookup.
  intros [_ H1] [_ H2] Hle Hge. split; [done |]. intros i p f Hp Hf.
  apply lookup_app_Some in Hp as [Hp | [Hi Hp]];
    apply lookup_app_Some in Hf as [Hf | [Hi' Hf]].
  - by apply (H1 i).
  - specialize (Hle _ _ Hp). specialize (Hge _ _ Hf). lia.
  - apply lookup_lt_Some in Hf. lia.
  - apply (H2 (i - length l1)%nat); [done |].
    by replace (S (i - length l1)) with (S i - length l1)%nat by lia.
Qed.

Lemma chain_fragments_of (k : Kind) (vs : list string) :
  chain None (fragments_of k vs) = true.
Proof.
  apply chain_adjacent. split; [done |]. intros i p f Hp Hf.
  pose proof (fragments_of_type k vs) as Hall. rewrite Forall_lookup in Hall.
  rewrite (order_index_type p f); [lia |].
  by rewrite (Hall _ _ Hp), (Hall _ _ Hf).
Qed.

Lemma fragments_of_index (k : Kind) (vs : list string) :
  Forall (λ f, order_index f = indexOf order (type_name k)) (fragments_of k vs).
Proof.
  eapply Forall_impl; [apply fragments_of_type |].
  intros f <-. reflexivity.
Qed.

Ltac index_bound :=
  repeat (apply Forall_app; split);
  (eapply Forall_impl; [apply fragments_of_index |]);
  intros ? ->; vm_compute; discriminate.

Lemma chain_canonical (es ids cs ats ps pes : list string) :
  chain None (canonical es ids cs ats ps pes) = true.
Proof.
  unfold canonical.
  apply (chain_app_bound 0); [apply chain_fragments_of | | index_bound | index_bound].
  apply (chain_app_bound 1); [apply chain_fragments_of | | index_bound | index_bound].
  apply (chain_app_bound 2); [apply chain_fragments_of | | index_bound | index_bound].
  apply (chain_app_bound 3); [apply chain_fragments_of | | index_bound | index_bound].
  apply (chain_app_bound 4); [apply chain_fragments_of | | index_bound | index_bound].
  apply chain_fragments_of.
Qed.

Lemma render_fragments_of (k : Kind) (vs : list string) :
  render_spec <$> fragments_of k vs
  = (λ v, render_spec {| type := k; value := v |}) <$> vs.
Proof. unfold fragments_of. by rewrite <- list_fmap_compose. Qed.

(** X10: every selector of the documented shape, with at most one
    element, at most one id, any number of classes, attributes and
    pseudo-classes and at most one pseudo-element, in that order, is
    produced by a chain of appending calls, and renders as the parts in
    that order, each with its mark. *)
Theorem canonical_shape (es ids cs ats ps pes : list string) :
  (length es ≤ 1)%nat → (length ids ≤ 1)%nat → (length pes ≤ 1)%nat →
  reachable {| res := Some (canonical es ids cs ats ps pes) |}
  ∧ stringify {| res := Some (canonical es ids cs ats ps pes) |}
    = concat_strings es
      +:+ concat_strings ((λ v, "#" +:+ v) <$> ids)
      +:+ concat_strings ((λ v, "." +:+ v) <$> cs)
      +:+ concat_strings ((λ v, "[" +:+ v +:+ "]") <$> ats)
      +:+ concat_strings ((λ v, ":" +:+ v) <$> ps)
      +:+ concat_strings ((λ v, "::" +:+ v) <$> pes).
Proof.
  intros He Hi Hpe. split.
  - apply sorted_buildable; [| | | | apply chain_canonical];
      unfold canonical.
    + repeat (apply Forall_app; split);
        (eapply Forall_impl; [apply fragments_of_type |]); by intros f ->.
    + rewrite !count_kind_app, !count_kind_fragments_of.
      repeat case_decide; simplify_eq; lia.
    + rewrite !count_kind_app, !count_kind_fragments_of.
      repeat case_decide; simplify_eq; lia.
    + rewrite !count_kind_app, !count_kind_fragments_of.
      repeat case_decide; simplify_eq; lia.
  - rewrite stringify_concat. cbn [res_or_empty res]. unfold canonical.
    rewrite !fmap_app, !concat_strings_app, !render_fragments_of.
    unfold render_spec. cbn [type value]. by rewrite list_fmap_id.
Qed.

Lemma canonical_shape_witness :
  reachable {| res := Some (canonical ["a"] [] ["c"; "d"] ["href"] [] ["after"]) |}
  ∧ stringify {| res := Some (canonical ["a"] [] ["c"; "d"] ["href"] [] ["after"]) |}
    = "a.c.d[href]::after".
Proof.
  exact (canonical_shape ["a"] [] ["c"; "d"] ["href"] [] ["after"]
           ltac:(cbn; lia) ltac:(cbn; lia) ltac:(cbn; lia)).
Defined.

(** ** Sharing on the store *)

Lemma store_append_run (σ : Store.store) (this : Store.loc) (s : Selector)
    (elems : list Store.loc) (k : Kind) (v : string) :
  Store.view σ this = Some s →
  Store.res_elems this σ = (Normal elems, σ) →
  store_append k this v σ
  = (if isSorted (extended s k v) then Normal (S (S (length σ))) else Throw NOT_SO_ERROR,
     σ ++ [ Store.FragmentCell {| type := k; value := v |};
            Store.ArrayCell (elems ++ [length σ]);
            Store.ObjectCell (Some (S (length σ))) ]).
Proof.
  intros Hv Hel.
  destruct (view_res_elems _ _ _ Hv) as (elems' & Hel' & Hfrags).
  assert (elems' = elems) as -> by congruence.
  set (c1 := Store.FragmentCell {| type := k; value := v |}).
  set (c2 := Store.ArrayCell (elems ++ [length σ])).
  set (c3 := Store.ObjectCell (Some (S (length σ)))).
  assert (length (σ ++ [c1]) = S (length σ)) as Hlen1
    by (rewrite length_app; cbn; lia).
  assert (length ((σ ++ [c1]) ++ [c2]) = S (S (length σ))) as Hlen2
    by (rewrite length_app, Hlen1; cbn; lia).
  assert (σ ++ [c1; c2; c3] = ((σ ++ [c1]) ++ [c2]) ++ [c3]) as ->
    by by rewrite <- !app_assoc.
  assert (Store.view (((σ ++ [c1]) ++ [c2]) ++ [c3]) (S (S (length σ)))
          = Some (extended s k v)) as Hview.
  { apply (view_new_object (σ ++ [c1]) (elems ++ [length σ]) _)
      with (array := S (length σ)).
    - apply fragments_at_snoc.
      + eapply fragments_at_mono; [| exact Hfrags]. by apply prefix_app_r.
      + unfold Store.fragment_at. by rewrite lookup_snoc_new.
    - rewrite <- app_assoc. by apply prefix_app_r.
    - apply lookup_snoc_old. rewrite <- Hlen1. apply lookup_snoc_new.
    - rewrite <- Hlen2. apply lookup_snoc_new. }
  unfold store_append.
  rewrite (bind_run _ _ σ σ elems) by done.
  rewrite (bind_run _ _ σ (σ ++ [c1]) (length σ)) by done.
  rewrite (bind_run _ _ (σ ++ [c1]) ((σ ++ [c1]) ++ [c2]) (S (length σ)))
    by (unfold Store.alloc; by rewrite Hlen1).
  rewrite (bind_run _ _ ((σ ++ [c1]) ++ [c2]) (((σ ++ [c1]) ++ [c2]) ++ [c3])
             (S (S (length σ))))
    by (unfold Store.alloc; by rewrite Hlen2).
  pose proof (view_throwErrorIfNotSorted _ _ _ Hview) as Hscan.
  unfold throwErrorIfNotSorted in Hscan.
  destruct (isSorted (extended s k v)); cbn [negb] in Hscan.
  - by rewrite (bind_run _ _ _ _ tt Hscan).
  - by rewrite (bind_run_throw _ _ _ _ NOT_SO_ERROR Hscan).
Qed.

(** X11: the object an appending method returns, its array and the
    appended fragment object are cells that did not exist before the
    call.  The new array holds the very references of the receiver's
    array, in order, followed by the reference of the new fragment
    object: the fragment objects are shared with the receiver, the array
    is not. *)
Theorem derived_selector_shares_fragments (op : AppendOp) (σ : Store.store)
    (this l' : Store.loc) (s : Selector) (v : string) :
  Store.view σ this = Some s →
  (Store.run_op op this v σ).1 = Normal l' →
  let σ' := (Store.run_op op this v σ).2 in
  ∃ (elems : list Store.loc) (obj array : Store.loc),
    Store.res_elems this σ = (Normal elems, σ)
    ∧ Store.get_res l' σ' = (Normal (Some array), σ')
    ∧ Store.get_elems array σ' = (Normal (elems ++ [obj]), σ')
    ∧ Store.get_fragment obj σ' = (Normal {| type := op_kind op; value := v |}, σ')
    ∧ (length σ ≤ obj)%nat ∧ (length σ ≤ array)%nat ∧ (length σ ≤ l')%nat.
Proof.
  intros Hv. destruct (view_res_elems _ _ _ Hv) as (elems & Hel & _).
  pose proof (store_append_run σ this s elems (op_kind op) v Hv Hel) as Happ.
  assert (Store.run_op op this v σ = store_append (op_kind op) this v σ
          ∨ ∃ message, Store.run_op op this v σ = (Throw message, σ)) as [Hrun | [m Hrun]].
  { rewrite store_run_op_unfold. destruct (singleton_op op); [| by left].
    rewrite (bind_run _ _ σ σ _ (view_occurs _ _ _ _ Hv)).
    destruct (occurs (type_name (op_kind op)) s); [right; by eexists | by left]. }
  2: { rewrite Hrun. done. }
  rewrite Hrun, Happ. cbn [fst snd].
  destruct (isSorted (extended s (op_kind op) v)); [| done].
  intros [= <-]. exists elems, (length σ), (S (length σ)).
  set (c1 := Store.FragmentCell _). set (c2 := Store.ArrayCell _).
  set (c3 := Store.ObjectCell _).
  assert ((σ ++ [c1; c2; c3]) !! length σ = Some c1) as H1
    by by apply list_lookup_middle.
  assert ((σ ++ [c1; c2; c3]) !! S (length σ) = Some c2) as H2.
  { change (σ ++ [c1; c2; c3]) with (σ ++ [c1] ++ [c2; c3]).
    rewrite app_assoc. apply list_lookup_middle. rewrite length_app. cbn. lia. }
  assert ((σ ++ [c1; c2; c3]) !! S (S (length σ)) = Some c3) as H3.
  { change (σ ++ [c1; c2; c3]) with (σ ++ [c1; c2] ++ [c3]).
    rewrite app_assoc. apply list_lookup_middle. rewrite length_app. cbn. lia. }
  split; [done |].
  unfold Store.get_res, Store.get_elems, Store.get_fragment.
  rewrite H1, H2, H3. repeat split; lia.
Qed.

Lemma derived_selector_shares_fragments_witness :
  ∃ (elems : list Store.loc) (obj array : Store.loc),
    Store.res_elems 3%nat (Store.class Store.builder "a" Store.initial).2
    = (Normal elems, (Store.class Store.builder "a" Store.initial).2)
    ∧ Store.get_res 6%nat
        (Store.attr 3%nat "b" (Store.class Store.builder "a" Store.initial).2).2
      = (Normal (Some array),
         (Store.attr 3%nat "b" (Store.class Store.builder "a" Store.initial).2).2)
    ∧ Store.get_elems array
        (Store.attr 3%nat "b" (Store.class Store.builder "a" Store.initial).2).2
      = (Normal (elems ++ [obj]),
         (Store.attr 3%nat "b" (Store.class Store.builder "a" Store.initial).2).2)
    ∧ Store.get_fragment obj
        (Store.attr 3%nat "b" (Store.class Store.builder "a" Store.initial).2).2
      = (Normal {| type := KAttribute; value := "b" |},
         (Store.attr 3%nat "b" (Store.class Store.builder "a" Store.initial).2).2)
    ∧ (4 ≤ obj)%nat ∧ (4 ≤ array)%nat ∧ (4 ≤ 6)%nat.
Proof.
  exact (derived_selector_shares_fragments OpAttr
           (Store.class Store.builder "a" Store.initial).2 3%nat 6%nat
           {| res := Some [ {| type := KClass; value := "a" |} ] |} "b"
           eq_refl eq_refl).
Defined.

(** ** What may follow, on a selector built by appending *)

Lemma sorted_le_last (l : list Fragment) (p f : Fragment) :
  chain None l = true → last l = Some p → f ∈ l → order_index f ≤ order_index p.
Proof.
  intros Hc Hlast Hin. apply last_Some in Hlast as [l' ->].
  apply list_elem_of_lookup in Hin as [i Hi].
  destruct (decide (i = length l')) as [-> | Hne].
  - rewrite lookup_snoc_new in Hi. simplify_eq. lia.
  - assert (i < length (l' ++ [p]))%nat as Hlt by by eapply lookup_lt_Some.
    rewrite length_app in Hlt. cbn in Hlt.
    apply (chain_lookup_le None (l' ++ [p]) i (length l') f p Hc);
      [lia | done | apply lookup_snoc_new].
Qed.

Lemma order_index_inj (f g : Fragment) :
  type f ≠ KCombinator → order_index f = order_index g → type f = type g.
Proof.
  destruct f as [[] v], g as [[] w]; cbn [type]; intros Hf Hidx;
    try done; vm_compute in Hidx; discriminate.
Qed.

(** X12: on a selector built by appending alone, whether an appending
    method returns is decided by the last fragment: [class], [attr] and
    [pseudoClass] return exactly when the last fragment's type is, in
    [order], at or before their own; [element], [id] and [pseudoElement]
    return exactly when it is strictly before their own.  On a selector
    without fragments all six return. *)
Theorem append_decided_by_last (op : AppendOp) (this : Selector) (v : string) :
  reachable this →
  run_op op this v = Normal (extended this (op_kind op) v)
  ↔ ∀ p, last (res_or_empty this) = Some p →
         if singleton_op op
         then order_index p < order_index {| type := op_kind op; value := v |}
         else order_index p ≤ order_index {| type := op_kind op; value := v |}.
Proof.
  intros Hreach.
  pose proof (reachable_isSorted _ Hreach) as Hsorted.
  pose proof (reachable_no_combinator _ Hreach) as Hall.
  rewrite Forall_forall in Hall.
  set (new := {| type := op_kind op; value := v |}).
  rewrite run_op_Normal, isSorted_extended, Hsorted, occurs_count. cbn [andb].
  fold new. rewrite isSorted_chain in Hsorted.
  destruct (last (res_or_empty this)) as [p|] eqn:Hlast.
  - assert (p ∈ res_or_empty this) as Hp.
    { apply last_Some in Hlast as [l' ->]. apply elem_of_app. right. left. }
    cbn [follows]. rewrite Z.leb_le.
    destruct (singleton_op op) eqn:Hs; cbn [andb].
    + rewrite bool_decide_eq_false. split.
      * intros (Hcount & Hle & _) q [= ->].
        destruct (decide (order_index q = order_index new)) as [Heq | Hne]; [| lia].
        destruct Hcount. apply count_kind_pos. exists q. split; [done |].
        by apply (order_index_inj q new (Hall q Hp)).
      * intros Hlt. specialize (Hlt p eq_refl). split; [| split; [lia | done]].
        intros Hcount. apply Hcount. 
        destruct (decide (count_kind (op_kind op) (res_or_empty this) = 0%nat))
          as [| Hpos]; [done |].
        apply count_kind_pos in Hpos as (f & Hin & Hk).
        pose proof (sorted_le_last _ p f Hsorted Hlast Hin) as Hle.
        rewrite (order_index_type f new Hk) in Hle. lia.
    + split.
      * by intros (_ & Hle & _) q [= ->].
      * intros Hle. split; [done |]. split; [by apply Hle | done].
  - apply last_None in Hlast. rewrite Hlast. cbn.
    rewrite andb_false_r. split; [done |]. by intros _.
Qed.

Lemma append_decided_by_last_witness :
  run_op OpId {| res := Some [ {| type := KElement; value := "a" |} ] |} "x"
  = Normal (extended {| res := Some [ {| type := KElement; value := "a" |} ] |} KId "x")
  ↔ ∀ p, last (res_or_empty {| res := Some [ {| type := KElement; value := "a" |} ] |})
         = Some p →
         if singleton_op OpId
         then order_index p < order_index {| type := op_kind OpId; value := "x" |}
         else order_index p ≤ order_index {| type := op_kind OpId; value := "x" |}.
Proof.
  apply (append_decided_by_last OpId
           {| res := Some [ {| type := KElement; value := "a" |} ] |} "x").
  apply (reachable_append OpElement cssSelectorBuilder _ "a"); [| reflexivity].
  by apply reachable_empty.
Defined.
